(** * Word-count batch over a list of web pages ([main.py])

    A shallow embedding of [main.py] and the properties of it that the
    specification states.

    Conventions of the embedding.
    - A Python [str] is a [string]; its characters are the code points
      0..255 (the Latin-1 range of Unicode), on which [str.lower],
      [str.isalpha], [str.isspace] and the case folding of
      [re.IGNORECASE] are written out below.
    - [re.findall(word, text, re.IGNORECASE)] is embedded for patterns
      that contain no regular-expression metacharacter ([plain_pattern]);
      the configured [WORDS] are such patterns.
    - The HTML parser and the network are outside the program: a parsed
      document is the pair of texts the program reads from it, and the
      parser and the servers' answers are fields of an [environment].
    - [async def] functions are computations in an exception monad;
      [asyncio.gather] receives the order in which its children complete.
    - The two files the program touches and its standard output form a
      [world], threaded through [save_data], [main] and the script body.
      A file is absent or holds text; files that exist but cannot be read,
      decoded or written are not part of the world. *)

From Stdlib Require Import Ascii String NArith.
From stdpp Require Import base option list numbers gmap strings pretty.

#[local] Set Warnings "-clear-no-such-hyp".

Local Open Scope string_scope.
Local Open Scope list_scope.

(** ** Characters and strings *)

Definition LF : ascii := "010"%char.
Definition CR : ascii := "013"%char.
Definition dquote : string := String "034"%char "".
Definition newline : string := String LF "".

Definition ord (c : ascii) : N := N_of_ascii c.

Definition between (lo hi : N) (c : ascii) : bool :=
  ((lo <=? ord c) && (ord c <=? hi))%N.

(** [c.isspace()]: the characters [str.split] and [str.strip] remove. *)
Definition isspace (c : ascii) : bool :=
  between 9 13 c || between 28 32 c || (ord c =? 133)%N || (ord c =? 160)%N.

(** Characters that [str.lower] changes. *)
Definition isupper (c : ascii) : bool :=
  between 65 90 c || between 192 214 c || between 216 222 c.

Definition lower_char (c : ascii) : ascii :=
  if isupper c then ascii_of_N (ord c + 32) else c.

(** [c.isalpha()] for one character. *)
Definition isalpha_char (c : ascii) : bool :=
  between 65 90 c || between 97 122 c
  || (ord c =? 170)%N || (ord c =? 181)%N || (ord c =? 186)%N
  || between 192 214 c || between 216 246 c || between 248 255 c.

Fixpoint str_forall (p : ascii → bool) (s : string) : bool :=
  match s with
  | "" => true
  | String c s' => p c && str_forall p s'
  end.

Fixpoint str_map (f : ascii → ascii) (s : string) : string :=
  match s with
  | "" => ""
  | String c s' => String (f c) (str_map f s')
  end.

(** [s.lower()] *)
Definition lower (s : string) : string := str_map lower_char s.

(** [s.isalpha()]: every character alphabetic and at least one character. *)
Definition isalpha (s : string) : bool :=
  match s with
  | "" => false
  | _ => str_forall isalpha_char s
  end.

(** [s.split()]: [tok] is the token being read, empty when there is none. *)
Fixpoint split_loop (tok s : string) : list string :=
  match s with
  | "" => match tok with "" => [] | _ => [tok] end
  | String c s' =>
      if isspace c
      then match tok with
           | "" => split_loop "" s'
           | _ => tok :: split_loop "" s'
           end
      else split_loop (tok +:+ String c "") s'
  end.

Definition split (s : string) : list string := split_loop "" s.

Fixpoint lstrip (s : string) : string :=
  match s with
  | "" => ""
  | String c s' => if isspace c then lstrip s' else s
  end.

Fixpoint rstrip (s : string) : string :=
  match s with
  | "" => ""
  | String c s' =>
      match rstrip s' with
      | "" => if isspace c then "" else String c ""
      | r => String c r
      end
  end.

(** [s.strip()] *)
Definition strip (s : string) : string := rstrip (lstrip s).

(** Reading in text mode translates CR LF and CR to LF. *)
Fixpoint universal_newlines (after_cr : bool) (s : string) : string :=
  match s with
  | "" => ""
  | String c s' =>
      if Ascii.eqb c CR then String LF (universal_newlines true s')
      else if Ascii.eqb c LF
           then if after_cr then universal_newlines false s'
                else String LF (universal_newlines false s')
           else String c (universal_newlines false s')
  end.

(** [f.readlines()]: the lines, each with its line end. *)
Fixpoint readlines_loop (cur s : string) : list string :=
  match s with
  | "" => match cur with "" => [] | _ => [cur] end
  | String c s' =>
      if Ascii.eqb c LF
      then (cur +:+ newline) :: readlines_loop "" s'
      else readlines_loop (cur +:+ String c "") s'
  end.

Definition readlines (content : string) : list string :=
  readlines_loop "" (universal_newlines false content).

(** [sep.join(lines)] *)
Fixpoint join (sep : string) (lines : list string) : string :=
  match lines with
  | [] => ""
  | [l] => l
  | l :: ls => l +:+ sep +:+ join sep ls
  end.

(** ** Regular expressions: patterns without metacharacters *)

Definition regex_special (c : ascii) : bool :=
  bool_decide (c ∈ list_ascii_of_string ".^$*+?{}[]\|()").

Definition plain_pattern (pattern : string) : bool :=
  str_forall (λ c, negb (regex_special c)) pattern.

(** The pattern matches at the start of [text], ignoring case. *)
Fixpoint match_here (pattern text : string) : bool :=
  match pattern, text with
  | "", _ => true
  | String p ps, String t ts =>
      bool_decide (lower_char p = lower_char t) && match_here ps ts
  | String _ _, "" => false
  end.

(** The scan of [re.findall]: leftmost match, then on from its end (one
    character further after an empty match).  [skip] counts the characters
    of the last match still to pass. *)
Fixpoint findall_loop (pattern : string) (skip : nat) (text : string)
  : list string :=
  match skip, text with
  | S k, String _ text' => findall_loop pattern k text'
  | S _, "" => []
  | 0, "" => if match_here pattern "" then [""] else []
  | 0, String _ text' =>
      if match_here pattern text
      then substring 0 (String.length pattern) text
             :: findall_loop pattern (pred (String.length pattern)) text'
      else findall_loop pattern 0 text'
  end.

(** [re.findall(pattern, text, re.IGNORECASE)] *)
Definition re_findall_ignorecase (pattern text : string) : list string :=
  findall_loop pattern 0 text.

(** [word] occurs in [text] at some position, whatever the case. *)
Fixpoint occurs_in (word text : string) : bool :=
  match_here word text
  || match text with
     | "" => false
     | String _ text' => occurs_in word text'
     end.

(** ** Exceptions and results *)

(** The exceptions the program meets, each with its [str(ex)]. *)
Inductive exn : Type :=
  | FileNotFoundError (text : string)
  | InvalidURL (text : string)
  | ClientConnectorError (text : string)
  | ValueError (text : string)
  | KeyError (text : string)
  | AssertionError (text : string)
  | OtherException (text : string).

Inductive outcome (A : Type) : Type :=
  | Returned (a : A)
  | Raised (e : exn).

Arguments Returned {A} a.
Arguments Raised {A} e.

Definition bind {A B} (m : outcome A) (k : A → outcome B) : outcome B :=
  match m with
  | Returned a => k a
  | Raised e => Raised e
  end.

Notation "'let!' x ':=' m 'in' k" := (bind m (λ x, k))
  (at level 10, x name, m at level 100, k at level 200).

(** ** The collaborators: parser and network *)

(** A parsed document, as the program observes it. *)
Record BeautifulSoup : Type := {
  get_text : string;            (* soup.get_text() *)
  get_text_sep_strip : string   (* soup.get_text(" ", strip=True) *)
}.

Record environment : Type := {
  (* BeautifulSoup(body, 'html.parser') *)
  html_parser : string → BeautifulSoup;
  (* session.get(url) followed by resp.text(): the body, or the exception *)
  response : string → outcome string;
  (* round(time_difference, 4), printed *)
  elapsed : string
}.

(** ** Data frames *)

Record aggr_dict : Type := {
  aggr_url : string;
  aggr_total_words : nat;
  aggr_unique_words : nat
}.

Record count_dict : Type := {
  count_url : string;
  count_word : string;
  count_count : nat
}.

(** A row of the frame [fetch_data] returns. *)
Record row : Type := {
  url : string;
  total_words : nat;
  unique_words : nat;
  word : string;
  count : nat
}.

Abbreviation DataFrame := (list row).

(** [pd.merge(aggr_df, count_df, on='url')]: the inner join; a frame built
    from an empty list has no column [url]. *)
Definition pd_merge (aggr_df : list aggr_dict) (count_df : list count_dict)
  : outcome DataFrame :=
  match count_df with
  | [] => Raised (KeyError "'url'")
  | _ =>
      Returned
        (a ← aggr_df;
         c ← filter (λ c, count_url c = aggr_url a) count_df;
         [ {| url := aggr_url a;
              total_words := aggr_total_words a;
              unique_words := aggr_unique_words a;
              word := count_word c;
              count := count_count c |} ])
  end.

(** [pd.concat(frames, ignore_index=True)] *)
Definition pd_concat (frames : list DataFrame) : outcome DataFrame :=
  match frames with
  | [] => Raised (ValueError "No objects to concatenate")
  | _ => Returned (concat frames)
  end.

(** [series.unique()]: the values in order of first appearance. *)
Fixpoint unique_loop (seen : gset string) (values : list string) : list string :=
  match values with
  | [] => []
  | v :: values' =>
      if decide (v ∈ seen) then unique_loop seen values'
      else v :: unique_loop ({[v]} ∪ seen) values'
  end.

Definition unique (values : list string) : list string := unique_loop ∅ values.

(** [df.pivot(index='word', columns='url', values=[...])]: the table keyed by
    (word, url); two rows with one key cannot be reshaped. *)
Fixpoint pivot_loop (df : DataFrame) (table : gmap (string * string) row)
  : outcome (gmap (string * string) row) :=
  match df with
  | [] => Returned table
  | r :: df' =>
      match table !! (word r, url r) with
      | Some _ => Raised (ValueError "Index contains duplicate entries, cannot reshape")
      | None => pivot_loop df' (<[(word r, url r) := r]> table)
      end
  end.

Definition pivot (df : DataFrame) : outcome (gmap (string * string) row) :=
  pivot_loop df ∅.

(** [pivot_df.loc[word, column][url]]; a key without a row is a missing
    value (the frames of [fetch_all] have none, see [pivot_grid]). *)
Definition cell (pivot_df : gmap (string * string) row) (column : row → nat)
    (word url : string) : option nat :=
  column <$> pivot_df !! (word, url).

Definition show_cell (v : option nat) : string :=
  match v with
  | Some n => pretty n
  | None => "nan"
  end.

(** [pivot_df.loc[word, column].sum()]: over the url columns, missing values
    skipped. *)
Definition row_sum (pivot_df : gmap (string * string) row) (column : row → nat)
    (word : string) (urls : list string) : nat :=
  sum_list (fmap (λ url, default 0 (cell pivot_df column word url)) urls).

(** ** asyncio.gather *)

(** The children's results are known; [order] lists the children in the order
    they complete.  A result is stored in the slot of its child; the first
    exception ends the wait. *)
Fixpoint gather_loop {A} (children : list (outcome A)) (order : list nat)
    (slots : list (option A)) : outcome (list (option A)) :=
  match order with
  | [] => Returned slots
  | i :: order' =>
      match children !! i with
      | Some (Returned a) => gather_loop children order' (<[i := Some a]> slots)
      | Some (Raised e) => Raised e
      | None => gather_loop children order' slots
      end
  end.

(** A completion order is any list of indices: an index that names no child
    or a child that already completed is passed over, and the children it
    does not name complete after the others, in the order they were started. *)
Definition completion_order (order : list nat) (n : nat) : list nat :=
  order ++ seq 0 n.

Definition gather {A} (order : list nat) (children : list (outcome A))
  : outcome (list A) :=
  let! slots := gather_loop children
                   (completion_order order (length children))
                   (replicate (length children) None) in
  Returned (omap id slots).

(** ** The files and the terminal *)

Record world : Type := {
  cwd : string;                 (* os.getcwd() *)
  urls_txt : option string;     (* the content of urls.txt, if the file exists *)
  result_txt : option string;   (* the content of result.txt, if the file exists *)
  stdout : list string          (* the texts printed, oldest first *)
}.

(** [Path(os.getcwd()).joinpath(name)], on a POSIX path. *)
Definition joinpath (dir name : string) : string :=
  if String.eqb dir "/" then "/" +:+ name else dir +:+ "/" +:+ name.

Definition print (text : string) (w : world) : world :=
  {| cwd := cwd w; urls_txt := urls_txt w; result_txt := result_txt w;
     stdout := stdout w ++ [text] |}.

(** [open(result.txt, mode='a')] and one [write]. *)
Definition append_result (text : string) (w : world) : world :=
  {| cwd := cwd w; urls_txt := urls_txt w;
     result_txt := Some (default "" (result_txt w) +:+ text);
     stdout := stdout w |}.

(** [open(result.txt, "r+")] and [truncate(0)]; a missing file stays missing.
    A result.txt that cannot be opened for writing is outside the model. *)
Definition truncate_result (w : world) : world :=
  {| cwd := cwd w; urls_txt := urls_txt w;
     result_txt := match result_txt w with Some _ => Some "" | None => None end;
     stdout := stdout w |}.

(** Computations that may raise and that act on the world. *)
Definition action (A : Type) : Type := world → outcome A * world.

Definition and_then {A B} (m : action A) (k : A → action B) : action B :=
  λ w, match m w with
       | (Returned a, w') => k a w'
       | (Raised e, w') => (Raised e, w')
       end.

Definition await {A} (m : outcome A) : action A := λ w, (m, w).

Definition perform (f : world → world) : action unit := λ w, (Returned (), f w).

Notation "'do!' x ':=' m 'in' k" := (and_then m (λ x, k))
  (at level 10, x name, m at level 100, k at level 200).

(** ** The program *)

Definition WORDS : list string := ["team"; "uniberg"].

(** urls.txt is missing or is read as text; other failures of [open] and
    [readlines] (no permission, a directory, bytes that do not decode) are
    outside the model. *)
Definition get_urls (w : world) : outcome (list string) :=
  let url_file_path := joinpath (cwd w) "urls.txt" in
  match urls_txt w with
  | None =>
      Raised (FileNotFoundError
                ("[Errno 2] No such file or directory: '" +:+ url_file_path +:+ "'"))
  | Some content =>
      let urls := fmap strip (readlines content) in
      Returned urls
  end.

Definition count_words (soup : BeautifulSoup) (word url : string)
  : outcome count_dict :=
  let html_text := get_text soup in
  let match_results := re_findall_ignorecase word html_text in
  let count_dict :=
    {| count_url := url; count_word := word;
       count_count := length match_results |} in
  Returned count_dict.

Definition get_aggr_data (soup : BeautifulSoup) (url : string)
  : outcome aggr_dict :=
  let all_words := filter (λ x, isalpha x = true)
                     (split (lower (get_text_sep_strip soup))) in
  let aggr_dict :=
    {| aggr_url := url;
       aggr_total_words := length all_words;
       aggr_unique_words := size (list_to_set all_words : gset string) |} in
  Returned aggr_dict.

(** The word counts never wait, so they complete in the order they start. *)
Definition fetch_data (env : environment) (url : string) (words : list string)
  : outcome DataFrame :=
  let! body := response env url in
  let soup := html_parser env body in
  let! aggr_dict := get_aggr_data soup url in
  let! count_dict := gather [] (fmap (λ word, count_words soup word url) words) in
  let aggr_df := [aggr_dict] in
  let count_df := count_dict in
  let! url_stat_df := pd_merge aggr_df count_df in
  Returned url_stat_df.

Definition fetch_all (env : environment) (order : list nat)
    (urls words : list string) : outcome DataFrame :=
  let cooroutines := fmap (λ url, fetch_data env url words) urls in
  let! frames := gather order cooroutines in
  pd_concat frames.

(** A frame without rows has no column [word] to read.  After the loop
    [word] is the last of [words]. *)
Definition save_data (df : DataFrame) : action unit :=
  match df with
  | [] => await (Raised (KeyError "'word'"))
  | _ =>
    let words := unique (fmap word df) in
    let urls := unique (fmap url df) in
    do! pivot_df := await (pivot df) in
    let lines :=
      flat_map
        (λ word,
           ["Occurrences of word " +:+ dquote +:+ word +:+ dquote +:+ ":"]
           ++ fmap (λ url, "- " +:+ url +:+ " => "
                          +:+ show_cell (cell pivot_df count word url)) urls
           ++ ["- Total count for word " +:+ dquote +:+ word +:+ dquote
               +:+ " in all urls => " +:+ pretty (row_sum pivot_df count word urls)])
        words in
    match last words with
    | None => await (Raised (OtherException "name 'word' is not defined"))
    | Some word =>
      let lines :=
        lines
        ++ ["* Total count of all words in all urls => "
            +:+ pretty (row_sum pivot_df total_words word urls)]
        ++ ["* Total count of unique words in all urls => "
            +:+ pretty (row_sum pivot_df unique_words word urls)] in
      perform (append_result (join newline lines))
    end
  end.

Definition main (env : environment) (order : list nat)
    (urls words : list string) : action unit :=
  do! final_df := await (fetch_all env order urls words) in
  do! _ := save_data final_df in
  perform (print ("Elapsed time: " +:+ elapsed env +:+ " seconds.")).

(** The [try] of the script body: the list of urls, asserted non-empty. *)
Definition load_urls (w : world) : outcome (list string) :=
  let! urls := get_urls w in
  if bool_decide (0 < length urls) then Returned urls
  else Raised (AssertionError "").

Definition exn_text (e : exn) : string :=
  match e with
  | FileNotFoundError t | InvalidURL t | ClientConnectorError t
  | ValueError t | KeyError t | AssertionError t | OtherException t => t
  end.

(** The [except] clauses around [asyncio.run(main(urls, WORDS))]. *)
Definition report_errors (run : outcome unit * world) : outcome unit * world :=
  match run with
  | (Returned _, w') => (Returned (), w')
  | (Raised (InvalidURL ex), w') =>
      perform (print ("There is an invalid url -> " +:+ dquote +:+ ex +:+ dquote
                      +:+ " in " +:+ dquote +:+ "ursl.txt" +:+ dquote +:+ " file.")) w'
  | (Raised (ClientConnectorError ex), w') =>
      perform (print ("Connection error" +:+ newline +:+ ex)) w'
  | (Raised ex, w') =>
      perform (print ("General exception" +:+ newline +:+ exn_text ex)) w'
  end.

(** The body under [if __name__ == '__main__'].  The result is [Raised] when
    an exception leaves the script. *)
Definition script (env : environment) (order : list nat) : action unit :=
  λ w,
  match load_urls w with
  | Raised (FileNotFoundError ex) =>
      perform (print ("Please provide valid " +:+ dquote +:+ "ursl.txt" +:+ dquote
                      +:+ " file." +:+ newline +:+ ex)) w
  | Raised (AssertionError _) =>
      perform (print ("File " +:+ dquote +:+ "ursl.txt" +:+ dquote +:+ " is empty!")) w
  | Raised e => (Raised e, w)
  | Returned urls =>
      let w := truncate_result w in
      report_errors (main env order urls WORDS w)
  end.

(** * What the properties are stated with *)

(** ** Text *)

(** A token: a non-empty string without whitespace. *)
Definition is_token (t : string) : Prop :=
  t ≠ "" ∧ str_forall (λ c, negb (isspace c)) t = true.

(** A string without a line end in it. *)
Definition no_line_break (s : string) : bool :=
  str_forall (λ c, negb (Ascii.eqb c LF || Ascii.eqb c CR)) s.

(** A url as a line of urls.txt holds it: not empty, trimmed, on one line. *)
Definition url_line (url : string) : Prop :=
  url ≠ "" ∧ strip url = url ∧ no_line_break url = true.

(** The number of lines of a text file.  A line ends at a line feed, at a
    carriage return, or at a carriage return with the line feed after it;
    text after the last line end is one more line.  [after_cr]: the last
    character was a carriage return; [started]: the line in progress has a
    character. *)
Fixpoint count_lines (after_cr started : bool) (s : string) : nat :=
  match s with
  | "" => if started then 1 else 0
  | String c s' =>
      if Ascii.eqb c CR then S (count_lines true false s')
      else if Ascii.eqb c LF
           then if after_cr then count_lines false started s'
                else S (count_lines false false s')
           else count_lines false true s'
  end.

Definition line_count (content : string) : nat := count_lines false false content.

(** A line of blanks: whitespace only, and no line end in it. *)
Definition blank_line (line : string) : Prop :=
  str_forall isspace line = true ∧ no_line_break line = true.

(** The file text of lines that each end in a line feed. *)
Fixpoint terminated (lines : list string) : string :=
  match lines with
  | [] => ""
  | line :: lines' => line +:+ newline +:+ terminated lines'
  end.

(** ** Waiting for concurrent children *)

(** The slots hold results of the children they belong to. *)
Definition slots_of {A} (results : list A) (slots : list (option A)) : Prop :=
  length slots = length results
  ∧ ∀ j a, slots !! j = Some (Some a) → results !! j = Some a.

(** ** One page *)

(** What one page contributes to the report. *)
Definition alphabetic_tokens (soup : BeautifulSoup) : list string :=
  filter (λ t, str_forall isalpha_char t = true)
    (split (lower (get_text_sep_strip soup))).

Definition soup_total (soup : BeautifulSoup) : nat :=
  length (alphabetic_tokens soup).

Definition soup_unique (soup : BeautifulSoup) : nat :=
  length (remove_dups (alphabetic_tokens soup)).

Definition soup_count (soup : BeautifulSoup) (word : string) : nat :=
  length (re_findall_ignorecase word (get_text soup)).

(** The rows of a page: one per word, in the order of the words. *)
Definition page_rows (soup : BeautifulSoup) (url : string) (words : list string)
  : DataFrame :=
  fmap (λ word, {| url := url;
                  total_words := soup_total soup;
                  unique_words := soup_unique soup;
                  word := word;
                  count := soup_count soup word |}) words.

(** ** The batch *)

(** The body a server returns for [url] (empty when the fetch fails). *)
Definition body_of (env : environment) (url : string) : string :=
  match response env url with
  | Returned body => body
  | Raised _ => ""
  end.

Definition page (env : environment) (url : string) : BeautifulSoup :=
  html_parser env (body_of env url).

Definition page_total (env : environment) (url : string) : nat :=
  soup_total (page env url).

Definition page_unique (env : environment) (url : string) : nat :=
  soup_unique (page env url).

Definition page_count (env : environment) (url word : string) : nat :=
  soup_count (page env url) word.

(** Every fetch of the batch succeeds. *)
Definition all_fetched (env : environment) (urls : list string) : Prop :=
  ∀ url, url ∈ urls → ∃ body, response env url = Returned body.

(** The frames of the pages, one per url, in the order of the urls. *)
Definition page_frames (env : environment) (urls words : list string)
  : list DataFrame :=
  (λ url, page_rows (page env url) url words) <$> urls.

(** ** Frames *)

(** The key of a row in the pivot table. *)
Definition key (r : row) : string * string := (word r, url r).

(** A frame with one row for every url and word, url by url. *)
Definition grid_row (total uniq : string → nat) (cnt : string → string → nat)
    (u w : string) : row :=
  {| url := u; total_words := total u; unique_words := uniq u;
     word := w; count := cnt u w |}.

Definition grid (total uniq : string → nat) (cnt : string → string → nat)
    (words urls : list string) : DataFrame :=
  concat ((λ u, grid_row total uniq cnt u <$> words) <$> urls).

(** ** The report and the lines printed *)

(** The report as the format describes it: for each word its header, a line
    per url and the total of the word; then the two grand totals. *)
Definition report_lines (urls words : list string)
    (cnt : string → string → nat) (total uniq : string → nat) : list string :=
  flat_map
    (λ word,
       ["Occurrences of word " +:+ dquote +:+ word +:+ dquote +:+ ":"]
       ++ ((λ url, "- " +:+ url +:+ " => " +:+ pretty (cnt url word)) <$> urls)
       ++ ["- Total count for word " +:+ dquote +:+ word +:+ dquote
           +:+ " in all urls => "
           +:+ pretty (sum_list ((λ url, cnt url word) <$> urls))])
    words
  ++ ["* Total count of all words in all urls => "
      +:+ pretty (sum_list (total <$> urls));
      "* Total count of unique words in all urls => "
      +:+ pretty (sum_list (uniq <$> urls))].

Definition report_text (urls words : list string)
    (cnt : string → string → nat) (total uniq : string → nat) : string :=
  join newline (report_lines urls words cnt total uniq).

(** The report of a batch whose pages were all fetched. *)
Definition batch_report (env : environment) (urls words : list string) : string :=
  report_text urls words (page_count env) (page_total env) (page_unique env).

Definition elapsed_line (env : environment) : string :=
  "Elapsed time: " +:+ elapsed env +:+ " seconds.".

(** The line an [except] clause of the script prints for an exception. *)
Definition error_line (e : exn) : string :=
  match e with
  | InvalidURL ex =>
      "There is an invalid url -> " +:+ dquote +:+ ex +:+ dquote
      +:+ " in " +:+ dquote +:+ "ursl.txt" +:+ dquote +:+ " file."
  | ClientConnectorError ex => "Connection error" +:+ newline +:+ ex
  | _ => "General exception" +:+ newline +:+ exn_text e
  end.

Definition missing_file_line (dir : string) : string :=
  "Please provide valid " +:+ dquote +:+ "ursl.txt" +:+ dquote +:+ " file."
  +:+ newline +:+ "[Errno 2] No such file or directory: '"
  +:+ joinpath dir "urls.txt" +:+ "'".

Definition empty_file_line : string :=
  "File " +:+ dquote +:+ "ursl.txt" +:+ dquote +:+ " is empty!".

(** ** A small web *)

(** A parser for documents without markup, and a small web. *)
Definition text_parser (body : string) : BeautifulSoup :=
  {| get_text := body; get_text_sep_strip := strip body |}.

Definition page_a : string := "Our team is the best team in Uniberg".
Definition page_b : string := "No matches here".

Definition demo_env : environment :=
  {| html_parser := text_parser;
     response := λ url,
       if String.eqb url "http://a.test" then Returned page_a
       else if String.eqb url "http://b.test" then Returned page_b
       else if String.eqb url "" then Raised (InvalidURL "")
       else Raised (ClientConnectorError
                      ("Cannot connect to host " +:+ url));
     elapsed := "0.8421" |}.

Definition demo_world (urls : option string) (result : option string) : world :=
  {| cwd := "/srv/demo"; urls_txt := urls; result_txt := result; stdout := [] |}.

Definition url_a : string := "http://a.test".

Definition url_b : string := "http://b.test".

Definition url_down : string := "http://down.test".

Definition down_error : exn :=
  ClientConnectorError "Cannot connect to host http://down.test".

(** urls.txt with one url per line. *)
Definition urls_file (urls : list string) : option string :=
  Some (join newline urls).


(** * Properties *)

#[local] Arguments String.append !_ _ / : simpl nomatch.

(** ** Text *)

Example split_ex :
  split (lower "  Our team,  is 1st in Uniberg ") =
  ["our"; "team,"; "is"; "1st"; "in"; "uniberg"].
Proof. reflexivity. Qed.

Example findall_ex :
  re_findall_ignorecase "team" "Teamwork: our TEAMteam" = ["Team"; "TEAM"; "team"].
Proof. reflexivity. Qed.

Example findall_empty_pattern : re_findall_ignorecase "" "abc" = [""; ""; ""; ""].
Proof. reflexivity. Qed.

Example findall_overlap : re_findall_ignorecase "aa" "aaaaa" = ["aa"; "aa"].
Proof. reflexivity. Qed.

Example readlines_ex :
  readlines ("a" +:+ String CR (String LF "b ") +:+ newline +:+ newline +:+ "c")
  = ["a" +:+ newline; "b " +:+ newline; newline; "c"].
Proof. reflexivity. Qed.

Example strip_ex : strip "  a b  " = "a b".
Proof. reflexivity. Qed.

Lemma match_here_lower (w1 w2 text : string) :
  lower w1 = lower w2 → match_here w1 text = match_here w2 text.
Proof.
  revert w2 text.
  induction w1 as [|c1 w1 IH]; intros [|c2 w2] text Hlow;
    try discriminate; [done|].
  injection Hlow as Hc Hw.
  destruct text as [|t text]; simpl; [done|].
  rewrite Hc. f_equal. by apply IH.
Qed.

Lemma lower_length (w1 w2 : string) :
  lower w1 = lower w2 → String.length w1 = String.length w2.
Proof.
  revert w2.
  induction w1 as [|c1 w1 IH]; intros [|c2 w2] Hlow; try discriminate; [done|].
  injection Hlow as _ Hw. simpl. f_equal. by apply IH.
Qed.

Lemma findall_loop_lower (w1 w2 text : string) (skip : nat) :
  lower w1 = lower w2 → findall_loop w1 skip text = findall_loop w2 skip text.
Proof.
  intros Hlow. revert skip.
  induction text as [|t text IH]; intros [|k]; simpl; try done.
  - by rewrite (match_here_lower w1 w2 "" Hlow).
  - rewrite (match_here_lower w1 w2 (String t text) Hlow).
    rewrite (lower_length w1 w2 Hlow).
    destruct (match_here w2 (String t text)); [f_equal|]; apply IH.
Qed.

Lemma findall_loop_absent (word text : string) (skip : nat) :
  word ≠ "" → occurs_in word text = false → findall_loop word skip text = [].
Proof.
  intros Hne. revert skip.
  induction text as [|t text IH]; intros skip Hocc.
  - destruct skip; [|done]. destruct word; [done|]. reflexivity.
  - cbn [occurs_in] in Hocc. apply orb_false_iff in Hocc as [Hhere Hrest].
    destruct skip as [|k]; cbn [findall_loop].
    + rewrite Hhere. by apply IH.
    + by apply IH.
Qed.

Lemma findall_loop_present (word text : string) :
  occurs_in word text = true → findall_loop word 0 text ≠ [].
Proof.
  induction text as [|t text IH]; intros Hocc.
  - simpl in Hocc. rewrite orb_false_r in Hocc. simpl. by rewrite Hocc.
  - cbn [occurs_in] in Hocc. cbn [findall_loop].
    destruct (match_here word (String t text)); [done|].
    by apply IH.
Qed.

Lemma append_empty_r (s : string) : s +:+ "" = s.
Proof. induction s as [|c s IH]; simpl; [done|by rewrite IH]. Qed.

Lemma append_assoc (s1 s2 s3 : string) : (s1 +:+ s2) +:+ s3 = s1 +:+ (s2 +:+ s3).
Proof. induction s1 as [|c s1 IH]; simpl; [done|by rewrite IH]. Qed.

Lemma append_not_empty (s : string) (c : ascii) : s +:+ String c "" ≠ "".
Proof. by destruct s. Qed.

Lemma str_forall_app (p : ascii → bool) (s1 s2 : string) :
  str_forall p (s1 +:+ s2) = str_forall p s1 && str_forall p s2.
Proof.
  induction s1 as [|c s1 IH]; simpl; [done|]. by rewrite IH, andb_assoc.
Qed.

Lemma split_loop_tokens (tok s : string) :
  str_forall (λ c, negb (isspace c)) tok = true →
  Forall is_token (split_loop tok s).
Proof.
  revert tok. induction s as [|c s IH]; intros tok Htok; simpl.
  - destruct tok; [constructor|]. by repeat constructor.
  - destruct (isspace c) eqn:Hc.
    + destruct tok; [by apply IH|].
      constructor; [by split|by apply IH].
    + apply IH. rewrite str_forall_app, Htok. simpl. by rewrite Hc.
Qed.

Lemma split_tokens (s : string) : Forall is_token (split s).
Proof. by apply split_loop_tokens. Qed.

(** Reading a token extends the token in progress. *)
Lemma split_loop_token (tok t s : string) :
  str_forall (λ c, negb (isspace c)) t = true →
  split_loop tok (t +:+ s) = split_loop (tok +:+ t) s.
Proof.
  revert tok. induction t as [|c t IH]; intros tok Ht; simpl.
  - by rewrite append_empty_r.
  - simpl in Ht. apply andb_true_iff in Ht as [Hc Ht].
    apply negb_true_iff in Hc. rewrite Hc, IH by done.
    by rewrite append_assoc.
Qed.

(** Tokens written with one blank between them are read back as they are. *)
Lemma split_join (ts : list string) :
  Forall is_token ts → split (join " " ts) = ts.
Proof.
  unfold split. induction 1 as [|t ts [Hne Ht] Hts IH]; [done|].
  destruct ts as [|t' ts].
  - simpl. rewrite <-(append_empty_r t) at 1.
    rewrite split_loop_token by done. simpl. by destruct t.
  - change (join " " (t :: t' :: ts)) with (t +:+ " " +:+ join " " (t' :: ts)).
    set (rest := join " " (t' :: ts)) in *.
    rewrite split_loop_token by done. simpl.
    destruct t; [done|]. by rewrite IH.
Qed.

(** A token is alphabetic exactly when it has no other character. *)
Lemma isalpha_token (t : string) :
  is_token t → isalpha t = str_forall isalpha_char t.
Proof. intros [Hne _]. by destruct t. Qed.

Lemma filter_isalpha_split (s : string) :
  filter (λ x, isalpha x = true) (split s)
  = filter (λ x, str_forall isalpha_char x = true) (split s).
Proof.
  pose proof (split_tokens s) as Htok.
  induction Htok as [|t ts Ht Hts IH]; [done|].
  rewrite !filter_cons, IH, (isalpha_token t Ht). done.
Qed.

(** ** Sets of words *)

Lemma size_list_to_set_le (l : list string) :
  (size (list_to_set l : gset string) ≤ length l)%nat.
Proof.
  induction l as [|x l IH]; cbn [list_to_set length].
  - by rewrite size_empty.
  - destruct (decide (x ∈ (list_to_set l : gset string))) as [Hin|Hin].
    + assert ({[x]} ∪ list_to_set l = (list_to_set l : gset string)) as ->
        by set_solver. lia.
    + rewrite size_union by set_solver. rewrite size_singleton. lia.
Qed.

Lemma size_list_to_set_NoDup (l : list string) :
  size (list_to_set l : gset string) = length l ↔ NoDup l.
Proof.
  split; [|apply size_list_to_set].
  induction l as [|x l IH]; cbn [list_to_set length]; intros Hsize; [constructor|].
  pose proof (size_list_to_set_le l) as Hle.
  destruct (decide (x ∈ (list_to_set l : gset string))) as [Hin|Hin].
  - assert ({[x]} ∪ list_to_set l = (list_to_set l : gset string)) as Heq
      by set_solver. rewrite Heq in Hsize. lia.
  - rewrite size_union, size_singleton in Hsize by set_solver.
    constructor; [set_solver|]. apply IH. lia.
Qed.

Lemma size_list_to_set_remove_dups (l : list string) :
  size (list_to_set l : gset string) = length (remove_dups l).
Proof.
  rewrite <-(size_list_to_set (C:=gset string) (remove_dups l))
    by apply NoDup_remove_dups.
  f_equal. apply set_eq. intros x.
  rewrite !elem_of_list_to_set. by rewrite elem_of_remove_dups.
Qed.

(** ** Waiting for concurrent children *)

Section gather.
Context {A : Type}.
Implicit Types (children : list (outcome A)) (results : list A).
Implicit Types (order : list nat) (slots : list (option A)).

Lemma gather_loop_returned results order slots :
  slots_of results slots →
  ∃ slots',
    gather_loop (Returned <$> results) order slots = Returned slots'
    ∧ slots_of results slots'
    ∧ ∀ j, j < length results →
           j ∈ order ∨ is_Some (slots !! j ≫= id) →
           is_Some (slots' !! j ≫= id).
Proof.
  revert slots. induction order as [|i order IH]; intros slots Hslots.
  - exists slots. split_and!; [done..|].
    intros j _ [Hj|Hj]; [by apply elem_of_nil in Hj|done].
  - cbn [gather_loop]. rewrite list_lookup_fmap.
    destruct (results !! i) as [a|] eqn:Hi; cbn [fmap option_fmap option_map].
    + destruct Hslots as [Hlen Hval].
      assert (i < length slots) as Hlt
        by (rewrite Hlen; by eapply lookup_lt_Some).
      destruct (IH (<[i:=Some a]> slots)) as (slots' & Hrun & Hslots' & Hfill).
      { split; [by rewrite length_insert|].
        intros j b. destruct (decide (i = j)) as [->|Hne].
        - rewrite list_lookup_insert_eq by done. congruence.
        - rewrite list_lookup_insert_ne by done. apply Hval. }
      exists slots'. split_and!; [done..|].
      intros j Hj Hin. apply Hfill; [done|].
      destruct (decide (i = j)) as [->|Hne].
      * right. rewrite list_lookup_insert_eq by done. by eexists.
      * rewrite list_lookup_insert_ne by done.
        destruct Hin as [Hin|Hin]; [|by right].
        apply elem_of_cons in Hin as [->|Hin]; [done|by left].
    + destruct (IH slots Hslots) as (slots' & Hrun & Hslots' & Hfill).
      exists slots'. split_and!; [done..|].
      intros j Hj Hin. apply Hfill; [done|].
      destruct Hin as [Hin|Hin]; [|by right].
      apply elem_of_cons in Hin as [->|Hin]; [|by left].
      apply lookup_lt_is_Some_2 in Hj. rewrite Hi in Hj. by destruct Hj.
Qed.

(** When every child returns, [gather] returns their results in the order
    of the children, whatever the order of completion. *)
Lemma gather_returned order results :
  gather order (Returned <$> results) = Returned results.
Proof.
  unfold gather. rewrite length_fmap.
  destruct (gather_loop_returned results
              (completion_order order (length results))
              (replicate (length results) None))
    as (slots' & -> & [Hlen Hval] & Hfill).
  { split; [by rewrite length_replicate|].
    intros j a Hj. apply lookup_replicate in Hj as [? _]. done. }
  cbn [bind]. f_equal.
  assert (slots' = Some <$> results) as ->.
  { apply list_eq. intros j. rewrite list_lookup_fmap.
    destruct (decide (j < length results)) as [Hj|Hj].
    - destruct (Hfill j Hj) as [a Ha].
      { left. unfold completion_order. apply elem_of_app. right.
        apply elem_of_seq. lia. }
      destruct (slots' !! j) as [[b|]|] eqn:Hb; try done.
      by rewrite (Hval j b Hb).
    - rewrite (lookup_ge_None_2 slots') by lia.
      rewrite (lookup_ge_None_2 results) by lia. done. }
  clear. induction results as [|a results IH]; [done|].
  cbn. by rewrite IH.
Qed.

(** The first child to complete with an exception decides the wait. *)
Lemma gather_loop_raised children before i after slots e :
  (∀ j, j ∈ before → ∀ e', children !! j ≠ Some (Raised e')) →
  children !! i = Some (Raised e) →
  gather_loop children (before ++ i :: after) slots = Raised e.
Proof.
  revert slots. induction before as [|j before IH]; intros slots Hbefore Hi.
  - cbn. by rewrite Hi.
  - cbn [app gather_loop].
    assert (∀ e', children !! j ≠ Some (Raised e')) as Hj
      by (apply Hbefore; by left).
    assert (∀ k, k ∈ before → ∀ e', children !! k ≠ Some (Raised e'))
      by (intros k Hk; apply Hbefore; by right).
    destruct (children !! j) as [[a|e']|]; [by apply IH| |by apply IH].
    by destruct (Hj e').
Qed.

Lemma first_raised children order i e :
  i ∈ order → children !! i = Some (Raised e) →
  ∃ before i' after e',
    order = before ++ i' :: after
    ∧ (∀ j, j ∈ before → ∀ e'', children !! j ≠ Some (Raised e''))
    ∧ children !! i' = Some (Raised e').
Proof.
  induction order as [|k order IH]; intros Hin Hi;
    [by apply elem_of_nil in Hin|].
  destruct (children !! k) as [[a|e1]|] eqn:Hk.
  2: { exists [], k, order, e1. split_and!; [done| |done].
       intros j Hj. by apply elem_of_nil in Hj. }
  all: apply elem_of_cons in Hin as [->|Hin]; [congruence|];
    destruct (IH Hin Hi) as (before & i' & after & e' & -> & Hbefore & Hi');
    exists (k :: before), i', after, e'; split_and!; [done| |done];
    intros j Hj e''; apply elem_of_cons in Hj as [->|Hj];
      [congruence|by apply Hbefore].
Qed.

(** When a child raises, [gather] raises the exception of a child, and
    returns no result of the others. *)
Lemma gather_raised order children i e :
  children !! i = Some (Raised e) →
  ∃ i' e', children !! i' = Some (Raised e')
           ∧ gather order children = Raised e'.
Proof.
  intros Hi.
  destruct (first_raised children
              (completion_order order (length children)) i e)
    as (before & i' & after & e' & Horder & Hbefore & Hi'); [|done|].
  { unfold completion_order. apply elem_of_app. right.
    apply elem_of_seq. apply lookup_lt_Some in Hi. lia. }
  exists i', e'. split; [done|].
  unfold gather. rewrite Horder.
  by rewrite (gather_loop_raised children before i' after _ e').
Qed.

Lemma returned_or_raised children :
  (∃ results, children = Returned <$> results)
  ∨ (∃ i e, children !! i = Some (Raised e)).
Proof.
  induction children as [|[a|e] children IH].
  - left. by exists [].
  - destruct IH as [[results ->]|(i & e & Hi)].
    + left. by exists (a :: results).
    + right. by exists (S i), e.
  - right. by exists 0, e.
Qed.

(** [gather] returns only when every child returned. *)
Lemma gather_returned_inv order children results :
  gather order children = Returned results →
  children = Returned <$> results.
Proof.
  intros Hrun.
  destruct (returned_or_raised children) as [[results' ->]|(i & e & Hi)].
  - rewrite gather_returned in Hrun. congruence.
  - destruct (gather_raised order children i e Hi) as (i' & e' & _ & Hraise).
    congruence.
Qed.
End gather.

(** ** One page *)

Lemma get_aggr_data_returned (soup : BeautifulSoup) (url : string) :
  get_aggr_data soup url
  = Returned {| aggr_url := url;
                aggr_total_words := soup_total soup;
                aggr_unique_words := soup_unique soup |}.
Proof.
  unfold get_aggr_data, soup_total, soup_unique, alphabetic_tokens.
  by rewrite filter_isalpha_split, size_list_to_set_remove_dups.
Qed.

Lemma pd_merge_page (u : string) (total uniq : nat) (soup : BeautifulSoup)
    (words : list string) :
  words ≠ [] →
  pd_merge [ {| aggr_url := u; aggr_total_words := total;
                aggr_unique_words := uniq |} ]
    (fmap (λ word, {| count_url := u; count_word := word;
                     count_count := soup_count soup word |}) words)
  = Returned
      (fmap (λ word, {| url := u;
                       total_words := total;
                       unique_words := uniq;
                       word := word;
                       count := soup_count soup word |}) words).
Proof.
  intros Hwords. unfold pd_merge.
  destruct words as [|w0 words]; [done|]. clear Hwords.
  set (ws := w0 :: words). f_equal.
  cbn [mbind list_bind]. rewrite app_nil_r.
  induction ws as [|w ws IH]; [done|].
  rewrite !fmap_cons, filter_cons_True by done.
  cbn [mbind list_bind app]. by rewrite IH.
Qed.

Lemma fetch_data_returned (env : environment) (url body : string)
    (words : list string) :
  response env url = Returned body → words ≠ [] →
  fetch_data env url words = Returned (page_rows (html_parser env body) url words).
Proof.
  intros Hbody Hwords. unfold fetch_data. rewrite Hbody. cbn [bind].
  rewrite get_aggr_data_returned. cbn [bind].
  set (soup := html_parser env body).
  assert ((λ word, count_words soup word url) <$> words
          = Returned <$> ((λ word, {| count_url := url; count_word := word;
                                      count_count := soup_count soup word |})
                          <$> words)) as ->
    by (by rewrite <-list_fmap_compose).
  rewrite gather_returned. cbn [bind].
  by rewrite pd_merge_page.
Qed.

Lemma fetch_data_raised (env : environment) (url : string) (e : exn)
    (words : list string) :
  response env url = Raised e → fetch_data env url words = Raised e.
Proof. intros Hbody. unfold fetch_data. by rewrite Hbody. Qed.

Lemma fetch_data_no_words (env : environment) (url body : string) :
  response env url = Returned body →
  fetch_data env url [] = Raised (KeyError "'url'").
Proof. intros Hbody. unfold fetch_data. by rewrite Hbody. Qed.

(** A page is fetched when the server answers and there is a word to count. *)
Lemma fetch_data_returned_inv (env : environment) (url : string)
    (words : list string) (df : DataFrame) :
  fetch_data env url words = Returned df →
  ∃ body, response env url = Returned body ∧ words ≠ []
          ∧ df = page_rows (html_parser env body) url words.
Proof.
  intros Hrun. destruct (response env url) as [body|e] eqn:Hbody.
  - exists body. destruct words as [|w words].
    + by rewrite (fetch_data_no_words env url body) in Hrun.
    + rewrite (fetch_data_returned env url body) in Hrun by done.
      split_and!; [done..|congruence].
  - by rewrite (fetch_data_raised env url e) in Hrun.
Qed.

(** ** The batch *)

Lemma cooroutines_returned (env : environment) (urls words : list string) :
  words ≠ [] → all_fetched env urls →
  (λ url, fetch_data env url words) <$> urls
  = Returned <$> page_frames env urls words.
Proof.
  intros Hwords Hall. unfold page_frames.
  rewrite <-list_fmap_compose. apply list_fmap_ext.
  intros i u Hu. apply list_elem_of_lookup_2 in Hu.
  destruct (Hall u Hu) as [body Hbody]. cbn.
  rewrite (fetch_data_returned env u body) by done.
  unfold page, body_of. by rewrite Hbody.
Qed.

Lemma fetch_all_returned (env : environment) (order : list nat)
    (urls words : list string) :
  urls ≠ [] → words ≠ [] → all_fetched env urls →
  fetch_all env order urls words
  = Returned (concat (page_frames env urls words)).
Proof.
  intros Hurls Hwords Hall. unfold fetch_all.
  rewrite cooroutines_returned, gather_returned by done. cbn [bind].
  unfold page_frames. by destruct urls.
Qed.

Lemma fetch_all_raised (env : environment) (order : list nat)
    (urls words : list string) (url : string) (e : exn) :
  url ∈ urls → fetch_data env url words = Raised e →
  ∃ url' e', url' ∈ urls ∧ fetch_data env url' words = Raised e'
             ∧ fetch_all env order urls words = Raised e'.
Proof.
  intros Hin Hraise. apply list_elem_of_lookup_1 in Hin as [i Hi].
  destruct (gather_raised order ((λ url, fetch_data env url words) <$> urls) i e)
    as (i' & e' & Hi' & Hrun).
  { by rewrite list_lookup_fmap, Hi; cbn; rewrite Hraise. }
  rewrite list_lookup_fmap in Hi'.
  destruct (urls !! i') as [url'|] eqn:Hurl'; [|done].
  cbn in Hi'. exists url', e'. split_and!.
  - by eapply list_elem_of_lookup_2.
  - congruence.
  - unfold fetch_all. by rewrite Hrun.
Qed.

Lemma fetch_all_returned_inv (env : environment) (order : list nat)
    (urls words : list string) (df : DataFrame) :
  fetch_all env order urls words = Returned df →
  urls ≠ [] ∧ words ≠ [] ∧ all_fetched env urls
  ∧ df = concat (page_frames env urls words).
Proof.
  intros Hrun.
  assert (all_fetched env urls ∧ words ≠ []) as [Hall Hwords].
  { unfold fetch_all in Hrun.
    destruct (gather order _) as [frames|e] eqn:Hgather; [|done].
    apply gather_returned_inv in Hgather.
    destruct urls as [|u0 urls]; [by destruct frames|].
    assert (∀ u, u ∈ u0 :: urls → ∃ f, fetch_data env u words = Returned f)
      as Hfetch.
    { intros u Hu. apply list_elem_of_lookup_1 in Hu as [i Hi].
      apply (f_equal (λ l, l !! i)) in Hgather.
      rewrite !list_lookup_fmap, Hi in Hgather. cbn in Hgather.
      destruct (frames !! i) as [f|]; [|done]. exists f. by injection Hgather. }
    split.
    - intros u Hu. destruct (Hfetch u Hu) as [f Hf].
      apply fetch_data_returned_inv in Hf as (body & ? & _). by exists body.
    - destruct (Hfetch u0) as [f Hf]; [by left|].
      by apply fetch_data_returned_inv in Hf as (body & _ & ? & _). }
  assert (urls ≠ []) as Hurls.
  { intros ->. unfold fetch_all in Hrun.
    change ((λ url, fetch_data env url words) <$> [])
      with (Returned (A:=DataFrame) <$> []) in Hrun.
    by rewrite gather_returned in Hrun. }
  rewrite fetch_all_returned in Hrun by done.
  split_and!; [done..|congruence].
Qed.

(** ** Frames: distinct values and the pivot table *)

Lemma unique_loop_app (seen : gset string) (l1 l2 : list string) :
  unique_loop seen (l1 ++ l2)
  = unique_loop seen l1 ++ unique_loop (list_to_set l1 ∪ seen) l2.
Proof.
  revert seen. induction l1 as [|x l1 IH]; intros seen; cbn [app unique_loop].
  - f_equal. set_solver.
  - destruct (decide (x ∈ seen)) as [Hx|Hx]; rewrite IH.
    + f_equal. f_equal. set_solver.
    + cbn [app]. f_equal. f_equal. f_equal. set_solver.
Qed.

Lemma unique_loop_seen (seen : gset string) (l : list string) :
  (∀ x, x ∈ l → x ∈ seen) → unique_loop seen l = [].
Proof.
  induction l as [|x l IH]; intros Hl; [done|]. cbn [unique_loop].
  rewrite decide_True by (apply Hl; by left).
  apply IH. intros y Hy. apply Hl. by right.
Qed.

Lemma unique_loop_fresh (seen : gset string) (l : list string) :
  NoDup l → (∀ x, x ∈ l → x ∉ seen) → unique_loop seen l = l.
Proof.
  intros Hnd. revert seen.
  induction Hnd as [|x l Hx Hnd IH]; intros seen Hl; [done|].
  cbn [unique_loop]. rewrite decide_False by (apply Hl; by left).
  f_equal. apply IH. intros y Hy.
  assert (y ∉ seen) by (apply Hl; by right). set_solver.
Qed.

Lemma pivot_loop_returned (df : DataFrame) (table : gmap (string * string) row) :
  NoDup (key <$> df) → (∀ r, r ∈ df → table !! key r = None) →
  ∃ table',
    pivot_loop df table = Returned table'
    ∧ (∀ r, r ∈ df → table' !! key r = Some r)
    ∧ (∀ k, k ∉ key <$> df → table' !! k = table !! k).
Proof.
  revert table. induction df as [|r df IH]; intros table Hnd Hfree.
  - exists table. split_and!; [done| |done].
    intros r Hr. by apply elem_of_nil in Hr.
  - rewrite fmap_cons in Hnd. apply NoDup_cons in Hnd as [Hr Hnd].
    cbn [pivot_loop]. fold (key r).
    rewrite (Hfree r) by (by left).
    destruct (IH (<[key r := r]> table) Hnd) as (table' & Hrun & Hin & Hout).
    { intros r' Hr'. rewrite lookup_insert_ne.
      - apply Hfree. by right.
      - intros Heq. apply Hr. rewrite Heq. by apply list_elem_of_fmap_2. }
    exists table'. split_and!; [done| |].
    + intros r' Hr'. apply elem_of_cons in Hr' as [->|Hr']; [|by apply Hin].
      rewrite Hout by done. by rewrite lookup_insert_eq.
    + intros k Hk. rewrite fmap_cons in Hk.
      apply not_elem_of_cons in Hk as [Hne Hk].
      rewrite Hout by done. by rewrite lookup_insert_ne.
Qed.

Lemma pivot_loop_free (df : DataFrame) (table table' : gmap (string * string) row) :
  pivot_loop df table = Returned table' → ∀ r, r ∈ df → table !! key r = None.
Proof.
  revert table. induction df as [|r0 df IH]; intros table Hrun r Hr.
  - by apply elem_of_nil in Hr.
  - cbn [pivot_loop] in Hrun. fold (key r0) in Hrun.
    destruct (table !! key r0) eqn:Hr0; [done|].
    apply elem_of_cons in Hr as [->|Hr]; [done|].
    pose proof (IH _ Hrun r Hr) as Hnone.
    by apply lookup_insert_None in Hnone as [? _].
Qed.

Lemma pivot_loop_returned_inv (df : DataFrame)
    (table table' : gmap (string * string) row) :
  pivot_loop df table = Returned table' → NoDup (key <$> df).
Proof.
  revert table. induction df as [|r0 df IH]; intros table Hrun.
  - constructor.
  - cbn [pivot_loop] in Hrun. fold (key r0) in Hrun.
    destruct (table !! key r0) eqn:Hr0; [done|].
    rewrite fmap_cons. constructor; [|by eapply IH].
    intros Hin. apply list_elem_of_fmap in Hin as (r & Hkey & Hr).
    pose proof (pivot_loop_free _ _ _ Hrun r Hr) as Hnone.
    rewrite <-Hkey, lookup_insert_eq in Hnone. done.
Qed.

Lemma flat_map_ext_elem {A B} (f g : A → list B) (l : list A) :
  (∀ x, x ∈ l → f x = g x) → flat_map f l = flat_map g l.
Proof.
  induction l as [|x l IH]; intros Hfg; [done|]. cbn [flat_map].
  rewrite (Hfg x) by (by left). f_equal. apply IH.
  intros y Hy. apply Hfg. by right.
Qed.

Lemma fmap_ext_elem {A B} (f g : A → B) (l : list A) :
  (∀ x, x ∈ l → f x = g x) → f <$> l = g <$> l.
Proof.
  intros Hfg. apply list_fmap_ext. intros i x Hx. apply Hfg.
  by eapply list_elem_of_lookup_2.
Qed.

(** The frame with one row for every url and word. *)
Section grid.
Variables (total uniq : string → nat) (cnt : string → string → nat).
Variable (words : list string).

Abbreviation grid_row := (grid_row total uniq cnt).
Abbreviation grid := (grid total uniq cnt words).

Lemma grid_cons (u : string) (urls : list string) :
  grid (u :: urls) = (grid_row u <$> words) ++ grid urls.
Proof. done. Qed.

Lemma elem_of_grid (urls : list string) (r : row) :
  r ∈ grid urls ↔ ∃ u w, u ∈ urls ∧ w ∈ words ∧ r = grid_row u w.
Proof.
  induction urls as [|u urls IH].
  - split; [intros Hr; by apply elem_of_nil in Hr|].
    intros (u & w & Hu & _). by apply elem_of_nil in Hu.
  - rewrite grid_cons, elem_of_app, IH, list_elem_of_fmap. split.
    + intros [(w & -> & Hw)|(u' & w & Hu' & Hw & ->)].
      * exists u, w. split_and!; [by left|done..].
      * exists u', w. split_and!; [by right|done..].
    + intros (u' & w & Hu' & Hw & ->).
      apply elem_of_cons in Hu' as [->|Hu']; [left|right]; eauto.
Qed.

Lemma grid_words_of_page (u : string) : word <$> (grid_row u <$> words) = words.
Proof. rewrite <-list_fmap_compose. apply list_fmap_id. Qed.

Lemma grid_urls_of_page (seen : gset string) (u : string) :
  words ≠ [] →
  unique_loop seen (url <$> (grid_row u <$> words))
  = (if decide (u ∈ seen) then [] else [u])
  ∧ list_to_set (url <$> (grid_row u <$> words)) = ({[u]} : gset string).
Proof.
  intros Hwords. rewrite <-list_fmap_compose.
  destruct words as [|w ws]; [done|]. clear Hwords.
  rewrite fmap_cons. cbn [unique_loop compose url grid_row list_to_set].
  assert (∀ x, x ∈ (url ∘ grid_row u) <$> ws → x = u) as Hall.
  { intros x Hx. by apply list_elem_of_fmap in Hx as (w' & -> & _). }
  split.
  - destruct (decide (u ∈ seen)).
    + apply unique_loop_seen. intros x Hx. by rewrite (Hall x Hx).
    + f_equal. apply unique_loop_seen. intros x Hx.
      rewrite (Hall x Hx). set_solver.
  - apply set_eq. intros x. rewrite elem_of_union, elem_of_list_to_set.
    split; [intros [?|Hx]; [done|]|by left].
    rewrite (Hall x Hx). set_solver.
Qed.

Lemma unique_grid_urls (seen : gset string) (urls : list string) :
  words ≠ [] → NoDup urls → (∀ u, u ∈ urls → u ∉ seen) →
  unique_loop seen (url <$> grid urls) = urls.
Proof.
  intros Hwords Hnd. revert seen.
  induction Hnd as [|u urls Hu Hnd IH]; intros seen Hfresh; [done|].
  rewrite grid_cons, fmap_app, unique_loop_app.
  destruct (grid_urls_of_page seen u Hwords) as [-> ->].
  rewrite decide_False by (apply Hfresh; by left).
  cbn [app]. f_equal. apply IH. intros u' Hu'.
  assert (u' ∉ seen) by (apply Hfresh; by right).
  assert (u' ≠ u) by (by intros ->). set_solver.
Qed.

Lemma unique_grid_words (urls : list string) :
  urls ≠ [] → NoDup words → unique (word <$> grid urls) = words.
Proof.
  intros Hurls Hnd. destruct urls as [|u urls]; [done|].
  unfold unique. rewrite grid_cons, fmap_app, unique_loop_app.
  rewrite grid_words_of_page.
  rewrite unique_loop_fresh by (done || set_solver).
  rewrite unique_loop_seen; [by rewrite app_nil_r|].
  intros w Hw. apply list_elem_of_fmap in Hw as (r & -> & Hr).
  apply elem_of_grid in Hr as (u' & w & _ & Hw & ->).
  cbn. set_solver.
Qed.

Lemma grid_keys_NoDup (urls : list string) :
  NoDup urls → NoDup words → NoDup (key <$> grid urls).
Proof.
  intros Hurls Hwords.
  induction Hurls as [|u urls Hu Hurls IH]; [constructor|].
  rewrite grid_cons, fmap_app. apply NoDup_app. split_and!; [|  |done].
  - rewrite <-list_fmap_compose. apply NoDup_fmap_2; [|done].
    intros w1 w2 Heq. by injection Heq.
  - intros k Hk1 Hk2.
    apply list_elem_of_fmap in Hk1 as (r1 & -> & Hr1).
    apply list_elem_of_fmap in Hr1 as (w1 & -> & _).
    apply list_elem_of_fmap in Hk2 as (r2 & Heq & Hr2).
    apply elem_of_grid in Hr2 as (u2 & w2 & Hu2 & _ & ->).
    injection Heq as _ ->. done.
Qed.

Lemma grid_keys_NoDup_inv (urls : list string) :
  NoDup (key <$> grid urls) →
  (words ≠ [] → NoDup urls) ∧ (urls ≠ [] → NoDup words).
Proof.
  intros Hnd. split.
  - intros Hwords. induction urls as [|u urls IH]; [constructor|].
    rewrite grid_cons, fmap_app in Hnd.
    apply NoDup_app in Hnd as (_ & Hdisj & Hnd).
    constructor; [|by apply IH].
    intros Hu.
    assert (∃ w, w ∈ words) as [w Hw].
    { destruct words as [|w ws]; [done|]. exists w. by left. }
    apply (Hdisj (key (grid_row u w))).
    + by do 2 apply list_elem_of_fmap_2.
    + apply list_elem_of_fmap_2, elem_of_grid. eauto.
  - intros Hurls. destruct urls as [|u urls]; [done|].
    rewrite grid_cons, fmap_app in Hnd.
    apply NoDup_app in Hnd as (Hnd & _ & _).
    rewrite <-list_fmap_compose in Hnd. by apply NoDup_fmap_1 in Hnd.
Qed.

Lemma pivot_grid (urls : list string) :
  NoDup urls → NoDup words →
  ∃ pivot_df,
    pivot (grid urls) = Returned pivot_df
    ∧ ∀ u w, u ∈ urls → w ∈ words → pivot_df !! (w, u) = Some (grid_row u w).
Proof.
  intros Hurls Hwords.
  destruct (pivot_loop_returned (grid urls) ∅) as (pivot_df & Hrun & Hin & _).
  { by apply grid_keys_NoDup. }
  { intros r _. apply lookup_empty. }
  exists pivot_df. split; [done|].
  intros u w Hu Hw. apply (Hin (grid_row u w)). apply elem_of_grid. eauto.
Qed.
End grid.

(** ** The report *)

Section report.
Variables (total uniq : string → nat) (cnt : string → string → nat).
Variables (urls words : list string).

Abbreviation df := (grid total uniq cnt words urls).

Lemma row_sum_grid (pivot_df : gmap (string * string) row)
    (column : row → nat) (w : string) :
  (∀ u, u ∈ urls → pivot_df !! (w, u) = Some (grid_row total uniq cnt u w)) →
  row_sum pivot_df column w urls
  = sum_list ((λ u, column (grid_row total uniq cnt u w)) <$> urls).
Proof.
  intros Hcells. unfold row_sum, cell. f_equal. apply fmap_ext_elem.
  intros u Hu. by rewrite (Hcells u Hu).
Qed.

Lemma save_data_grid (w : world) :
  urls ≠ [] → words ≠ [] → NoDup urls → NoDup words →
  save_data df w
  = (Returned (), append_result (report_text urls words cnt total uniq) w).
Proof.
  intros Hurls Hwords Hndu Hndw. unfold save_data.
  destruct df as [|r0 rest] eqn:Hdf.
  { exfalso.
    assert (∃ u, u ∈ urls) as [u Hu]
      by (destruct urls as [|u ?]; [done|exists u; by left]).
    assert (∃ w0, w0 ∈ words) as [w0 Hw0]
      by (destruct words as [|w0 ?]; [done|exists w0; by left]).
    assert (grid_row total uniq cnt u w0 ∈ df) as Hin
      by (apply elem_of_grid; eauto).
    rewrite Hdf in Hin. by apply elem_of_nil in Hin. }
  rewrite <-Hdf.
  assert (unique (url <$> grid total uniq cnt words urls) = urls) as Huniq
    by (apply unique_grid_urls; (done || set_solver)).
  rewrite !Huniq, !unique_grid_words by done.
  destruct (pivot_grid total uniq cnt words urls Hndu Hndw)
    as (pivot_df & -> & Hcells).
  unfold and_then, await.
  destruct (last words) as [wl|] eqn:Hlast;
    [|by apply last_None in Hlast].
  assert (wl ∈ words) as Hwl.
  { apply last_Some in Hlast as [l' ->]. apply elem_of_app. right. by left. }
  unfold perform, report_text, report_lines. do 3 f_equal.
  f_equal.
  - apply flat_map_ext_elem. intros wd Hwd. do 2 f_equal.
    + apply fmap_ext_elem. intros u Hu. unfold cell.
      by rewrite (Hcells u wd Hu Hwd).
    + rewrite (row_sum_grid pivot_df count wd) by (intros; by apply Hcells).
      done.
  - rewrite !(row_sum_grid pivot_df _ wl) by (intros; by apply Hcells).
    done.
Qed.

Lemma save_data_grid_inv (w w' : world) :
  urls ≠ [] → words ≠ [] →
  save_data df w = (Returned (), w') → NoDup urls ∧ NoDup words.
Proof.
  intros Hurls Hwords Hrun. unfold save_data in Hrun.
  destruct df as [|r0 rest] eqn:Hdf; [done|]. rewrite <-Hdf in Hrun.
  unfold and_then, await in Hrun.
  destruct (pivot df) as [pivot_df|e] eqn:Hpivot; [|done].
  apply pivot_loop_returned_inv in Hpivot.
  apply grid_keys_NoDup_inv in Hpivot as [Hu Hw]. auto.
Qed.
End report.

(** ** The whole run *)

Lemma page_frames_grid (env : environment) (urls words : list string) :
  concat (page_frames env urls words)
  = grid (page_total env) (page_unique env) (page_count env) words urls.
Proof. reflexivity. Qed.

Lemma main_returned (env : environment) (order : list nat)
    (urls words : list string) (w : world) :
  urls ≠ [] → words ≠ [] → NoDup urls → NoDup words → all_fetched env urls →
  main env order urls words w
  = (Returned (),
     print (elapsed_line env) (append_result (batch_report env urls words) w)).
Proof.
  intros Hurls Hwords Hndu Hndw Hall. unfold main, and_then, await.
  rewrite fetch_all_returned, page_frames_grid by done.
  by rewrite save_data_grid.
Qed.

Lemma main_returned_inv (env : environment) (order : list nat)
    (urls words : list string) (w w' : world) :
  main env order urls words w = (Returned (), w') →
  urls ≠ [] ∧ words ≠ [] ∧ NoDup urls ∧ NoDup words ∧ all_fetched env urls.
Proof.
  unfold main, and_then, await. intros Hrun.
  destruct (fetch_all env order urls words) as [df|e] eqn:Hfetch; [|done].
  apply fetch_all_returned_inv in Hfetch as (Hurls & Hwords & Hall & ->).
  rewrite page_frames_grid in Hrun.
  destruct (save_data _ w) as [[[]|e] w1] eqn:Hsave; [|done].
  apply save_data_grid_inv in Hsave as [? ?]; done.
Qed.

Lemma main_raised (env : environment) (order : list nat)
    (urls words : list string) (w : world) (url : string) (e : exn) :
  url ∈ urls → fetch_data env url words = Raised e →
  ∃ url' e', url' ∈ urls ∧ fetch_data env url' words = Raised e'
             ∧ fetch_all env order urls words = Raised e'
             ∧ main env order urls words w = (Raised e', w).
Proof.
  intros Hin Hraise.
  destruct (fetch_all_raised env order urls words url e Hin Hraise)
    as (url' & e' & Hin' & Hraise' & Hrun).
  exists url', e'. split_and!; [done..|].
  unfold main, and_then, await. by rewrite Hrun.
Qed.

Lemma report_errors_raised (e : exn) (w : world) :
  report_errors (Raised e, w) = (Returned (), print (error_line e) w).
Proof. by destruct e. Qed.

Lemma script_loaded (env : environment) (order : list nat) (w : world)
    (urls : list string) :
  load_urls w = Returned urls →
  script env order w = report_errors (main env order urls WORDS (truncate_result w)).
Proof. intros Hload. unfold script. by rewrite Hload. Qed.

Lemma WORDS_NoDup : NoDup WORDS.
Proof. apply (bool_decide_unpack _). by vm_compute. Qed.

Lemma WORDS_plain : Forall (λ word, plain_pattern word = true ∧ word ≠ "") WORDS.
Proof. repeat constructor; done. Qed.

(** * The claims *)

(** ** Text analysis *)

(** C4. For every page and every target word (a non-empty word without
    regular-expression metacharacters, as the configured words are),
    [count_words] returns a record, and the count in it is 0 exactly when the
    word does not occur in the text of the page, whatever the case; a page
    without text, such as an empty body, has count 0. *)
Theorem count_words_returns (env : environment) (html word url : string) :
  plain_pattern word = true → word ≠ "" →
  ∃ n,
    count_words (html_parser env html) word url
    = Returned {| count_url := url; count_word := word; count_count := n |}
    ∧ (occurs_in word (get_text (html_parser env html)) = false ↔ n = 0)
    ∧ (get_text (html_parser env html) = "" → n = 0).
Proof.
  intros _ Hword. set (soup := html_parser env html).
  exists (soup_count soup word). split_and!; [done| |].
  - unfold soup_count, re_findall_ignorecase. split.
    + intros Habsent. by rewrite findall_loop_absent.
    + intros Hzero. destruct (occurs_in word (get_text soup)) eqn:Hocc; [|done].
      apply findall_loop_present in Hocc.
      by destruct (findall_loop word 0 (get_text soup)).
  - intros Hempty. unfold soup_count, re_findall_ignorecase.
    rewrite Hempty. by destruct word.
Qed.

Lemma count_words_returns_witness :
  ∃ n,
    count_words (html_parser demo_env "") "team" "http://a.test"
    = Returned {| count_url := "http://a.test"; count_word := "team";
                  count_count := n |}
    ∧ (occurs_in "team" (get_text (html_parser demo_env "")) = false ↔ n = 0)
    ∧ (get_text (html_parser demo_env "") = "" → n = 0).
Proof.
  apply (count_words_returns demo_env "" "team" "http://a.test").
  - reflexivity.
  - discriminate.
Defined.

(** C5. For every page the aggregate of [get_aggr_data] has
    [unique_words ≤ total_words], and the two are equal exactly when the
    alphabetic tokens of the page are pairwise distinct. *)
Theorem total_words_ge_unique_words (env : environment) (html url : string) :
  ∃ a,
    get_aggr_data (html_parser env html) url = Returned a
    ∧ (aggr_unique_words a ≤ aggr_total_words a)%nat
    ∧ (aggr_total_words a = aggr_unique_words a
       ↔ NoDup (alphabetic_tokens (html_parser env html))).
Proof.
  set (soup := html_parser env html).
  eexists. split; [apply get_aggr_data_returned|].
  cbn [aggr_total_words aggr_unique_words]. unfold soup_total, soup_unique.
  rewrite <-size_list_to_set_remove_dups. split.
  - apply size_list_to_set_le.
  - rewrite <-size_list_to_set_NoDup. split; congruence.
Qed.

(** C6. [count_words] ignores the case of the word: two words that are equal
    once lowercased, such as Team and team, have the same count on every
    page. *)
Theorem count_words_ignores_case (soup : BeautifulSoup) (word1 word2 url : string) :
  plain_pattern word1 = true → plain_pattern word2 = true →
  lower word1 = lower word2 →
  ∃ n,
    count_words soup word1 url
    = Returned {| count_url := url; count_word := word1; count_count := n |}
    ∧ count_words soup word2 url
      = Returned {| count_url := url; count_word := word2; count_count := n |}.
Proof.
  intros _ _ Hlow. exists (soup_count soup word1). split; [done|].
  unfold count_words, soup_count, re_findall_ignorecase.
  by rewrite (findall_loop_lower word1 word2 _ 0 Hlow).
Qed.

Lemma count_words_ignores_case_witness :
  ∃ n,
    count_words (text_parser page_a) "Team" "http://a.test"
    = Returned {| count_url := "http://a.test"; count_word := "Team";
                  count_count := n |}
    ∧ count_words (text_parser page_a) "team" "http://a.test"
      = Returned {| count_url := "http://a.test"; count_word := "team";
                    count_count := n |}.
Proof.
  apply (count_words_ignores_case (text_parser page_a) "Team" "team").
  - reflexivity.
  - reflexivity.
  - reflexivity.
Defined.

Lemma lower_char_space (c : ascii) : isspace (lower_char c) = isspace c.
Proof. by destruct c as [[] [] [] [] [] [] [] []]. Qed.

Lemma lower_app (s1 s2 : string) : lower (s1 +:+ s2) = lower s1 +:+ lower s2.
Proof.
  unfold lower. induction s1 as [|c s1 IH]; [done|]. cbn. by rewrite IH.
Qed.

Lemma lower_join (ts : list string) :
  lower (join " " ts) = join " " (lower <$> ts).
Proof.
  induction ts as [|t ts IH]; [done|]. destruct ts as [|t' ts]; [done|].
  change (join " " (t :: t' :: ts)) with (t +:+ " " +:+ join " " (t' :: ts)).
  rewrite !lower_app, IH. done.
Qed.

Lemma lower_token (t : string) : is_token t → is_token (lower t).
Proof.
  intros [Hne Ht]. split; [by destruct t|]. clear Hne.
  induction t as [|c t IH]; [done|]. cbn [str_forall] in Ht.
  apply andb_true_iff in Ht as [Hc Ht].
  cbn [lower str_map str_forall]. rewrite lower_char_space, Hc.
  by apply IH.
Qed.

(** The aggregate of a text given by its tokens. *)
Lemma get_aggr_data_of_tokens (ts : list string) (other url : string) :
  Forall is_token ts →
  get_aggr_data {| get_text := other; get_text_sep_strip := join " " ts |} url
  = Returned
      {| aggr_url := url;
         aggr_total_words :=
           length (filter (λ t, str_forall isalpha_char t = true) (lower <$> ts));
         aggr_unique_words :=
           length (remove_dups
                     (filter (λ t, str_forall isalpha_char t = true)
                        (lower <$> ts))) |}.
Proof.
  intros Hts. rewrite get_aggr_data_returned.
  unfold soup_total, soup_unique, alphabetic_tokens. cbn [get_text_sep_strip].
  rewrite lower_join, split_join; [done|].
  apply Forall_fmap. eapply Forall_impl; [done|]. apply lower_token.
Qed.

(** C7. For every page [get_aggr_data] lowercases the text of the page, splits
    it into its whitespace-free tokens, keeps the tokens made of alphabetic
    characters only, and returns their number as [total_words] and the number
    of distinct ones as [unique_words].  In particular, for a text made of
    the tokens [ts] with a blank between them, these are the numbers of the
    lowercased [ts] without a non-alphabetic character, and of the distinct
    ones among them; lowercasing turns the capital letters into the small
    ones and leaves the rest, and letters are alphabetic where digits, marks
    and hyphens are not.  For the text Our team is the best team in Uniberg:
    8 and 7, and counts team = 2, uniberg = 1; words that differ in case
    only are one word, and tokens with a digit, a mark or a hyphen are not
    counted. *)
Theorem get_aggr_data_counts_alphabetic_tokens
    (env : environment) (html url other : string) (ts : list string) :
  let soup := html_parser env html in
  let tokens := split (lower (get_text_sep_strip soup)) in
  let kept := filter (λ t, str_forall isalpha_char t = true) tokens in
  Forall is_token tokens
  ∧ get_aggr_data soup url
    = Returned {| aggr_url := url;
                  aggr_total_words := length kept;
                  aggr_unique_words := length (remove_dups kept) |}
  ∧ (Forall is_token ts →
     get_aggr_data {| get_text := other; get_text_sep_strip := join " " ts |} url
     = Returned
         {| aggr_url := url;
            aggr_total_words :=
              length (filter (λ t, str_forall isalpha_char t = true)
                        (lower <$> ts));
            aggr_unique_words :=
              length (remove_dups
                        (filter (λ t, str_forall isalpha_char t = true)
                           (lower <$> ts))) |})
  ∧ lower "ABCDEFGHIJKLMNOPQRSTUVWXYZ" = "abcdefghijklmnopqrstuvwxyz"
  ∧ lower "abcdefghijklmnopqrstuvwxyz 0123456789 -_,.;:!?'()/@#&%+*=<>[]{}"
    = "abcdefghijklmnopqrstuvwxyz 0123456789 -_,.;:!?'()/@#&%+*=<>[]{}"
  ∧ str_forall isalpha_char
      "abcdefghijklmnopqrstuvwxyzABCDEFGHIJKLMNOPQRSTUVWXYZ" = true
  ∧ str_forall (λ c, negb (isalpha_char c))
      " 0123456789-_,.;:!?'()/@#&%+*=<>[]{}" = true
  ∧ get_aggr_data {| get_text := other; get_text_sep_strip := page_a |} url
    = Returned {| aggr_url := url; aggr_total_words := 8;
                  aggr_unique_words := 7 |}
  ∧ get_aggr_data
      {| get_text := other; get_text_sep_strip := "Team team TEAM Teams tEaM" |}
      url
    = Returned {| aggr_url := url; aggr_total_words := 5;
                  aggr_unique_words := 2 |}
  ∧ get_aggr_data
      {| get_text := other;
         get_text_sep_strip := "The team, 1st at half-time: Team's best team!" |}
      url
    = Returned {| aggr_url := url; aggr_total_words := 3;
                  aggr_unique_words := 3 |}
  ∧ count_words {| get_text := page_a; get_text_sep_strip := other |} "team" url
    = Returned {| count_url := url; count_word := "team"; count_count := 2 |}
  ∧ count_words {| get_text := page_a; get_text_sep_strip := other |} "uniberg" url
    = Returned {| count_url := url; count_word := "uniberg"; count_count := 1 |}.
Proof.
  intros soup tokens kept. split_and!.
  - apply split_tokens.
  - apply get_aggr_data_returned.
  - apply get_aggr_data_of_tokens.
  - reflexivity.
  - reflexivity.
  - reflexivity.
  - reflexivity.
  - rewrite get_aggr_data_returned. reflexivity.
  - rewrite get_aggr_data_returned. reflexivity.
  - rewrite get_aggr_data_returned. reflexivity.
  - reflexivity.
  - reflexivity.
Qed.

Lemma get_aggr_data_counts_alphabetic_tokens_witness :
  get_aggr_data
    {| get_text := "";
       get_text_sep_strip := join " " ["Team"; "team,"; "TEAM"; "Uniberg"] |}
    url_a
  = Returned
      {| aggr_url := url_a;
         aggr_total_words :=
           length (filter (λ t, str_forall isalpha_char t = true)
                     (lower <$> ["Team"; "team,"; "TEAM"; "Uniberg"]));
         aggr_unique_words :=
           length (remove_dups
                     (filter (λ t, str_forall isalpha_char t = true)
                        (lower <$> ["Team"; "team,"; "TEAM"; "Uniberg"]))) |}.
Proof.
  apply (get_aggr_data_counts_alphabetic_tokens demo_env "" url_a ""
           ["Team"; "team,"; "TEAM"; "Uniberg"]).
  repeat constructor; discriminate.
Defined.

(** ** Loading the urls *)

Lemma isspace_CR_LF : isspace CR = true ∧ isspace LF = true.
Proof. done. Qed.

Lemma universal_newlines_blank (after_cr : bool) (s : string) :
  str_forall isspace s = true →
  str_forall isspace (universal_newlines after_cr s) = true.
Proof.
  revert after_cr. induction s as [|c s IH]; intros after_cr Hs; [done|].
  cbn [str_forall] in Hs. apply andb_true_iff in Hs as [Hc Hs].
  cbn [universal_newlines].
  destruct (Ascii.eqb c CR); [by cbn; rewrite IH|].
  destruct (Ascii.eqb c LF).
  - destruct after_cr; [by apply IH|by cbn; rewrite IH].
  - cbn [str_forall]. by rewrite Hc, IH.
Qed.

Lemma universal_newlines_not_empty (s : string) :
  s ≠ "" → universal_newlines false s ≠ "".
Proof.
  destruct s as [|c s]; [done|]. intros _. cbn [universal_newlines].
  destruct (Ascii.eqb c CR); [done|]. by destruct (Ascii.eqb c LF).
Qed.

Lemma lstrip_blank (s : string) : str_forall isspace s = true → lstrip s = "".
Proof.
  induction s as [|c s IH]; [done|]. cbn [str_forall lstrip].
  intros [Hc Hs]%andb_true_iff. rewrite Hc. by apply IH.
Qed.

Lemma strip_blank (s : string) : str_forall isspace s = true → strip s = "".
Proof. intros Hs. unfold strip. by rewrite lstrip_blank. Qed.

Lemma readlines_loop_blank (cur s : string) :
  str_forall isspace cur = true → str_forall isspace s = true →
  Forall (λ line, str_forall isspace line = true) (readlines_loop cur s).
Proof.
  revert cur. induction s as [|c s IH]; intros cur Hcur Hs.
  - cbn. destruct cur; by repeat constructor.
  - cbn [str_forall] in Hs. apply andb_true_iff in Hs as [Hc Hs].
    cbn [readlines_loop]. destruct (Ascii.eqb c LF).
    + constructor; [|by apply IH].
      by rewrite str_forall_app, Hcur.
    + apply IH; [|done]. rewrite str_forall_app, Hcur. cbn. by rewrite Hc.
Qed.

Lemma readlines_loop_not_empty (cur s : string) :
  cur ≠ "" ∨ s ≠ "" → readlines_loop cur s ≠ [].
Proof.
  revert cur. induction s as [|c s IH]; intros cur Hne.
  - cbn. destruct cur; [by destruct Hne|done].
  - cbn [readlines_loop]. destruct (Ascii.eqb c LF); [done|].
    apply IH. left. apply append_not_empty.
Qed.

(** A file of blank lines loads as one empty url per line. *)
Lemma get_urls_blank (dir content : string) (result : option string)
    (out : list string) :
  content ≠ "" → str_forall isspace content = true →
  let w := {| cwd := dir; urls_txt := Some content; result_txt := result;
              stdout := out |} in
  (0 < length (readlines content))%nat
  ∧ get_urls w = Returned (replicate (length (readlines content)) "").
Proof.
  intros Hne Hblank w. split.
  - assert (readlines content ≠ []) as Hlines.
    { apply readlines_loop_not_empty. right.
      by apply universal_newlines_not_empty. }
    destruct (readlines content); [done|cbn; lia].
  - unfold get_urls. cbn [urls_txt w]. f_equal.
    assert (Forall (λ line, str_forall isspace line = true) (readlines content))
      as Hlines
      by (apply readlines_loop_blank; [done|by apply universal_newlines_blank]).
    induction Hlines as [|line lines Hline Hlines IH]; [done|].
    rewrite fmap_cons. cbn [length replicate]. by rewrite strip_blank, IH.
Qed.

(** A batch of [n] equal urls stands and falls with the fetch of that url. *)
Lemma fetch_all_replicate (env : environment) (order : list nat)
    (words : list string) (url : string) (n : nat) :
  (0 < n)%nat →
  fetch_all env order (replicate n url) words
  = (let! frame := fetch_data env url words in
     Returned (concat (replicate n frame))).
Proof.
  intros Hn. destruct (fetch_data env url words) as [frame|e] eqn:Hfetch.
  - unfold fetch_all. rewrite fmap_replicate, Hfetch.
    rewrite <-(fmap_replicate Returned), gather_returned. cbn [bind].
    by destruct n; [lia|].
  - destruct (fetch_all_raised env order (replicate n url) words url e)
      as (url' & e' & Hin & Hraise & ->); [|done|].
    + destruct n; [lia|]. by left.
    + apply elem_of_replicate in Hin as [-> _]. cbn [bind]. congruence.
Qed.

Lemma lstrip_head (s : string) :
  lstrip s = "" ∨ ∃ c t, lstrip s = String c t ∧ isspace c = false.
Proof.
  induction s as [|c s IH]; [by left|]. cbn [lstrip].
  destruct (isspace c) eqn:Hc; [done|]. right. by exists c, s.
Qed.

Lemma rstrip_head (c : ascii) (t : string) :
  isspace c = false → ∃ t', rstrip (String c t) = String c t'.
Proof.
  intros Hc. cbn [rstrip]. rewrite Hc. destruct (rstrip t); by eexists.
Qed.

Lemma rstrip_idem (s : string) : rstrip (rstrip s) = rstrip s.
Proof.
  induction s as [|c s IH]; [done|]. cbn [rstrip].
  destruct (rstrip s) as [|d r] eqn:Hr.
  - destruct (isspace c) eqn:Hc; [done|]. cbn. by rewrite Hc.
  - cbn [rstrip]. cbn [rstrip] in IH. by rewrite IH.
Qed.

Lemma strip_idem (s : string) : strip (strip s) = strip s.
Proof.
  unfold strip. destruct (lstrip_head s) as [->|(c & t & -> & Hc)]; [done|].
  destruct (rstrip_head c t Hc) as [t' Ht']. rewrite Ht'.
  cbn [lstrip]. rewrite Hc, <-Ht'. apply rstrip_idem.
Qed.

Lemma rstrip_app_space (s : string) (c : ascii) :
  isspace c = true → rstrip (s +:+ String c "") = rstrip s.
Proof.
  intros Hc. induction s as [|d s IH]; cbn [String.append rstrip].
  - by rewrite Hc.
  - by rewrite IH.
Qed.

Lemma lstrip_app_space (s : string) (c : ascii) :
  isspace c = true →
  lstrip (s +:+ String c "")
  = if str_forall isspace s then "" else lstrip s +:+ String c "".
Proof.
  intros Hc. induction s as [|d s IH]; cbn [String.append lstrip str_forall].
  - by rewrite Hc.
  - destruct (isspace d); [by rewrite IH|done].
Qed.

Lemma strip_app_space (s : string) (c : ascii) :
  isspace c = true → strip (s +:+ String c "") = strip s.
Proof.
  intros Hc. unfold strip. rewrite lstrip_app_space by done.
  destruct (str_forall isspace s) eqn:Hs.
  - by rewrite lstrip_blank.
  - by apply rstrip_app_space.
Qed.

Lemma lstrip_forall (p : ascii → bool) (s : string) :
  str_forall p s = true → str_forall p (lstrip s) = true.
Proof.
  induction s as [|c s IH]; [done|]. cbn [lstrip]. intros Hs.
  destruct (isspace c); [|done]. cbn in Hs.
  apply andb_true_iff in Hs as [_ Hs]. by apply IH.
Qed.

Lemma rstrip_forall (p : ascii → bool) (s : string) :
  str_forall p s = true → str_forall p (rstrip s) = true.
Proof.
  induction s as [|c s IH]; [done|]. cbn [rstrip str_forall].
  intros [Hc Hs]%andb_true_iff. specialize (IH Hs).
  destruct (rstrip s) as [|d r].
  - destruct (isspace c); [done|]. cbn. by rewrite Hc.
  - cbn [str_forall]. cbn [str_forall] in IH. by rewrite Hc, IH.
Qed.

Lemma strip_forall (p : ascii → bool) (s : string) :
  str_forall p s = true → str_forall p (strip s) = true.
Proof. intros Hs. by apply rstrip_forall, lstrip_forall. Qed.

Lemma universal_newlines_no_CR (after_cr : bool) (s : string) :
  str_forall (λ c, negb (Ascii.eqb c CR)) (universal_newlines after_cr s) = true.
Proof.
  revert after_cr. induction s as [|c s IH]; intros after_cr; [done|].
  cbn [universal_newlines]. destruct (Ascii.eqb c CR) eqn:Hcr.
  - cbn [str_forall]. by rewrite IH.
  - destruct (Ascii.eqb c LF) eqn:Hlf.
    + destruct after_cr; [done|]. cbn [str_forall]. by rewrite IH.
    + cbn [str_forall]. by rewrite Hcr, IH.
Qed.

(** A line of [readlines] is a text without a line end, with or without a
    line feed after it. *)
Lemma readlines_loop_lines (cur s : string) :
  no_line_break cur = true →
  str_forall (λ c, negb (Ascii.eqb c CR)) s = true →
  Forall (λ line, ∃ text, no_line_break text = true
                          ∧ (line = text ∨ line = text +:+ newline))
    (readlines_loop cur s).
Proof.
  revert cur. induction s as [|c s IH]; intros cur Hcur Hs.
  - cbn. destruct cur; [constructor|]. repeat constructor. eauto.
  - cbn [str_forall] in Hs. apply andb_true_iff in Hs as [Hc Hs].
    cbn [readlines_loop]. destruct (Ascii.eqb c LF) eqn:Hlf.
    + constructor; [eauto|]. by apply IH.
    + apply IH; [|done]. unfold no_line_break in *.
      rewrite str_forall_app, Hcur. cbn. rewrite Hlf.
      apply negb_true_iff in Hc. by rewrite Hc.
Qed.

Lemma universal_newlines_id (s : string) :
  str_forall (λ c, negb (Ascii.eqb c CR)) s = true →
  universal_newlines false s = s.
Proof.
  induction s as [|c s IH]; [done|]. cbn [str_forall universal_newlines].
  intros [Hc Hs]%andb_true_iff. apply negb_true_iff in Hc. rewrite Hc.
  destruct (Ascii.eqb c LF) eqn:Hlf; rewrite IH by done; [|done].
  by apply Ascii.eqb_eq in Hlf as ->.
Qed.

Lemma readlines_loop_text (cur u rest : string) :
  no_line_break u = true →
  readlines_loop cur (u +:+ rest) = readlines_loop (cur +:+ u) rest.
Proof.
  revert cur. induction u as [|c u IH]; intros cur Hu.
  - by rewrite append_empty_r.
  - cbn [no_line_break str_forall] in Hu. fold (no_line_break u) in Hu.
    apply andb_true_iff in Hu as [Hc Hu].
    apply negb_true_iff, orb_false_iff in Hc as [Hlf _].
    cbn [String.append readlines_loop]. rewrite Hlf, IH by done.
    by rewrite append_assoc.
Qed.

Lemma readlines_loop_count (after_cr : bool) (cur s : string) :
  length (readlines_loop cur (universal_newlines after_cr s))
  = count_lines after_cr (negb (String.eqb cur "")) s.
Proof.
  revert after_cr cur. induction s as [|c s IH]; intros after_cr cur.
  - cbn. by destruct cur.
  - cbn [universal_newlines count_lines].
    destruct (Ascii.eqb c CR) eqn:Hcr.
    { cbn [readlines_loop]. rewrite Ascii.eqb_refl. cbn [length].
      by rewrite IH. }
    destruct (Ascii.eqb c LF) eqn:Hlf.
    + destruct after_cr; [apply IH|].
      cbn [readlines_loop]. rewrite Ascii.eqb_refl. cbn [length].
      by rewrite IH.
    + cbn [readlines_loop]. rewrite Hlf, IH. f_equal. by destruct cur.
Qed.

Lemma readlines_line_count (content : string) :
  length (readlines content) = line_count content.
Proof. apply readlines_loop_count. Qed.

Lemma terminated_no_CR (blanks : list string) :
  Forall blank_line blanks →
  str_forall (λ c, negb (Ascii.eqb c CR)) (terminated blanks) = true.
Proof.
  induction 1 as [|b blanks [_ Hb] _ IH]; [done|].
  cbn [terminated]. rewrite !str_forall_app, IH, andb_true_r.
  unfold no_line_break in Hb. clear -Hb.
  induction b as [|c b IHb]; [done|]. cbn [str_forall] in *.
  apply andb_true_iff in Hb as [Hc Hb].
  apply negb_true_iff, orb_false_iff in Hc as [_ ->]. by apply IHb.
Qed.

(** Blank lines that each end in a line feed load as one empty url each. *)
Lemma get_urls_terminated_blanks (blanks : list string) (dir : string)
    (result : option string) (out : list string) :
  Forall blank_line blanks →
  get_urls {| cwd := dir; urls_txt := Some (terminated blanks);
              result_txt := result; stdout := out |}
  = Returned (replicate (length blanks) "").
Proof.
  intros Hblanks. unfold get_urls, readlines. cbn [urls_txt]. f_equal.
  rewrite universal_newlines_id by (by apply terminated_no_CR).
  induction Hblanks as [|b blanks [Hb Hline] _ IH]; [done|].
  cbn [terminated]. rewrite readlines_loop_text by done.
  cbn [String.append newline readlines_loop]. rewrite Ascii.eqb_refl.
  rewrite fmap_cons, IH. cbn [length replicate]. f_equal.
  unfold newline. rewrite strip_app_space by done. by apply strip_blank.
Qed.

(** C10. Loading strips each line and keeps the lines that become empty: a
    non-empty file of whitespace only loads as one empty url per line of the
    file (a line ends at a line feed, a carriage return or the pair of them,
    and text after the last line end is a line); in particular blank lines
    that each end in a line feed load as one empty url each.  The list is not
    empty, no setup error is printed, and the batch runs with these urls: it
    fetches the empty url, and that fetch decides the batch. *)
Theorem blank_lines_load_as_empty_urls (env : environment) (order : list nat)
    (dir content : string) (result : option string) (out : list string)
    (blanks : list string) :
  content ≠ "" → str_forall isspace content = true →
  let w := {| cwd := dir; urls_txt := Some content; result_txt := result;
              stdout := out |} in
  let n := line_count content in
  (0 < n)%nat
  ∧ length (readlines content) = n
  ∧ get_urls w = Returned (replicate n "")
  ∧ load_urls w = Returned (replicate n "")
  ∧ script env order w
    = report_errors (main env order (replicate n "") WORDS (truncate_result w))
  ∧ fetch_all env order (replicate n "") WORDS
    = (let! frame := fetch_data env "" WORDS in
       Returned (concat (replicate n frame)))
  ∧ (Forall blank_line blanks →
     get_urls {| cwd := dir; urls_txt := Some (terminated blanks);
                 result_txt := result; stdout := out |}
     = Returned (replicate (length blanks) "")).
Proof.
  intros Hne Hblank w n.
  destruct (get_urls_blank dir content result out Hne Hblank) as [Hn Hurls].
  rewrite readlines_line_count in Hn, Hurls. fold w n in Hn, Hurls.
  assert (load_urls w = Returned (replicate n "")) as Hload.
  { unfold load_urls. rewrite Hurls. cbn [bind].
    rewrite length_replicate. by rewrite bool_decide_true. }
  split_and!; [done|apply readlines_line_count|done..| | |].
  - by apply script_loaded.
  - by apply fetch_all_replicate.
  - apply get_urls_terminated_blanks.
Qed.

(** ** Setup errors *)

(** C8. When urls.txt is missing, and when it is empty, the script prints
    one line, a different one in each case, and ends: whatever the servers
    and the schedule, no batch runs, and result.txt is left as it was,
    neither written nor truncated. *)
Theorem setup_errors_end_the_run (env : environment) (order : list nat)
    (dir : string) (result : option string) (out : list string) :
  script env order
    {| cwd := dir; urls_txt := None; result_txt := result; stdout := out |}
  = (Returned (),
     {| cwd := dir; urls_txt := None; result_txt := result;
        stdout := out ++ [missing_file_line dir] |})
  ∧ script env order
      {| cwd := dir; urls_txt := Some ""; result_txt := result; stdout := out |}
    = (Returned (),
       {| cwd := dir; urls_txt := Some ""; result_txt := result;
          stdout := out ++ [empty_file_line] |})
  ∧ missing_file_line dir ≠ empty_file_line.
Proof.
  split_and!; [reflexivity..|].
  unfold missing_file_line, empty_file_line. cbn. discriminate.
Qed.

(** ** The batch and its report *)

Lemma fetch_data_raised_inv (env : environment) (url : string)
    (words : list string) (e : exn) :
  words ≠ [] → fetch_data env url words = Raised e → response env url = Raised e.
Proof.
  intros Hwords Hraise. destruct (response env url) as [body|e'] eqn:Hbody.
  - by rewrite (fetch_data_returned env url body) in Hraise.
  - rewrite (fetch_data_raised env url e') in Hraise by done. congruence.
Qed.

(** C1, as the program has it.  When the fetch of some url of the batch fails,
    then for every order of completion [fetch_all] raises the exception of a
    failed fetch and returns no page, [main] raises it and writes no report,
    and the script catches it: it prints one error line and returns, with
    result.txt truncated and nothing in it. *)
Theorem failed_fetch_ends_the_batch (env : environment) (order : list nat)
    (w : world) (urls : list string) (i : nat) (url : string) (e : exn) :
  load_urls w = Returned urls →
  urls !! i = Some url →
  response env url = Raised e →
  ∃ url' e',
    url' ∈ urls ∧ response env url' = Raised e'
    ∧ fetch_all env order urls WORDS = Raised e'
    ∧ main env order urls WORDS (truncate_result w)
      = (Raised e', truncate_result w)
    ∧ script env order w
      = (Returned (), print (error_line e') (truncate_result w)).
Proof.
  intros Hload Hi Hraise.
  destruct (main_raised env order urls WORDS (truncate_result w) url e)
    as (url' & e' & Hin & Hfetch & Hall & Hmain).
  { by eapply list_elem_of_lookup_2. }
  { by apply fetch_data_raised. }
  exists url', e'. split_and!; [done| |done..|].
  - by apply fetch_data_raised_inv in Hfetch.
  - by rewrite (script_loaded env order w urls), Hmain, report_errors_raised.
Qed.

(** C2, as the program has it.  For every non-empty list of urls whose
    fetches all succeed, and for every order of completion, [gather] returns
    exactly one frame per url, the frame at each position being the page of
    the url at that position, and [fetch_all] returns these frames joined in
    that order. *)
Theorem fetch_all_keeps_input_order (env : environment) (order : list nat)
    (urls words : list string) :
  urls ≠ [] → words ≠ [] → all_fetched env urls →
  ∃ frames,
    gather order ((λ url, fetch_data env url words) <$> urls) = Returned frames
    ∧ length frames = length urls
    ∧ (∀ i url, urls !! i = Some url →
         frames !! i = Some (page_rows (page env url) url words)
         ∧ fetch_data env url words
           = Returned (page_rows (page env url) url words))
    ∧ fetch_all env order urls words = Returned (concat frames).
Proof.
  intros Hurls Hwords Hall. exists (page_frames env urls words).
  pose proof (cooroutines_returned env urls words Hwords Hall) as Hco.
  split_and!.
  - by rewrite Hco, gather_returned.
  - unfold page_frames. by rewrite length_fmap.
  - intros i url Hi. split.
    + unfold page_frames. by rewrite list_lookup_fmap, Hi.
    + apply (f_equal (λ l, l !! i)) in Hco.
      unfold page_frames in Hco. rewrite !list_lookup_fmap, Hi in Hco.
      by injection Hco.
  - by apply fetch_all_returned.
Qed.



(** ** The claims on a small web *)

Ltac all_fetched_by_cases :=
  let url := fresh "url" in
  let Hin := fresh "Hin" in
  intros url Hin;
  repeat (apply elem_of_cons in Hin as [->|Hin]; [eexists; reflexivity|]);
  by apply elem_of_nil in Hin.

Lemma failed_fetch_ends_the_batch_witness :
  ∃ url' e',
    url' ∈ [url_a; url_down; url_b] ∧ response demo_env url' = Raised e'
    ∧ fetch_all demo_env [2; 0] [url_a; url_down; url_b] WORDS = Raised e'
    ∧ main demo_env [2; 0] [url_a; url_down; url_b] WORDS
        (truncate_result
           (demo_world (urls_file [url_a; url_down; url_b]) (Some "old")))
      = (Raised e',
         truncate_result
           (demo_world (urls_file [url_a; url_down; url_b]) (Some "old")))
    ∧ script demo_env [2; 0]
        (demo_world (urls_file [url_a; url_down; url_b]) (Some "old"))
      = (Returned (),
         print (error_line e')
           (truncate_result
              (demo_world (urls_file [url_a; url_down; url_b]) (Some "old")))).
Proof.
  apply (failed_fetch_ends_the_batch demo_env [2; 0]
           (demo_world (urls_file [url_a; url_down; url_b]) (Some "old"))
           [url_a; url_down; url_b] 1 url_down down_error).
  - reflexivity.
  - reflexivity.
  - reflexivity.
Defined.

(** C1 fails as stated: of three urls one is unreachable; no page is
    returned for the two that answer, and result.txt holds no report of
    theirs: it is empty. *)
Lemma failed_fetch_loses_the_report :
  response demo_env url_a = Returned page_a
  ∧ response demo_env url_b = Returned page_b
  ∧ response demo_env url_down = Raised down_error
  ∧ fetch_all demo_env [] [url_a; url_down; url_b] WORDS = Raised down_error
  ∧ script demo_env []
      (demo_world (urls_file [url_a; url_down; url_b]) (Some "old"))
    = (Returned (),
       {| cwd := "/srv/demo";
          urls_txt := urls_file [url_a; url_down; url_b];
          result_txt := Some "";
          stdout := ["Connection error" +:+ newline
                     +:+ "Cannot connect to host http://down.test"] |})
  ∧ Some "" ≠ Some (batch_report demo_env [url_a; url_b] WORDS).
Proof. split_and!; [reflexivity..|]. by vm_compute. Qed.

Lemma fetch_all_keeps_input_order_witness :
  ∃ frames,
    gather [1; 0] ((λ url, fetch_data demo_env url WORDS) <$> [url_a; url_b])
    = Returned frames
    ∧ length frames = length [url_a; url_b]
    ∧ (∀ i url, [url_a; url_b] !! i = Some url →
         frames !! i = Some (page_rows (page demo_env url) url WORDS)
         ∧ fetch_data demo_env url WORDS
           = Returned (page_rows (page demo_env url) url WORDS))
    ∧ fetch_all demo_env [1; 0] [url_a; url_b] WORDS = Returned (concat frames).
Proof.
  apply (fetch_all_keeps_input_order demo_env [1; 0] [url_a; url_b] WORDS).
  - discriminate.
  - discriminate.
  - all_fetched_by_cases.
Defined.

(** C2 fails as stated: for a non-empty list with an unreachable url the
    batch has no result at all, for neither url. *)
Lemma failed_fetch_leaves_no_result :
  response demo_env url_a = Returned page_a
  ∧ gather [] ((λ url, fetch_data demo_env url WORDS) <$> [url_a; url_down])
    = Raised down_error
  ∧ fetch_all demo_env [] [url_a; url_down] WORDS = Raised down_error
  ∧ fetch_all demo_env [1; 0] [url_a; url_down] WORDS = Raised down_error.
Proof. split_and!; reflexivity. Qed.




(** The report of the two pages, line by line. *)
Example report_of_two_pages :
  report_lines [url_a; url_b] WORDS
    (page_count demo_env) (page_total demo_env) (page_unique demo_env)
  = ["Occurrences of word " +:+ dquote +:+ "team" +:+ dquote +:+ ":";
     "- http://a.test => 2";
     "- http://b.test => 0";
     "- Total count for word " +:+ dquote +:+ "team" +:+ dquote
       +:+ " in all urls => 2";
     "Occurrences of word " +:+ dquote +:+ "uniberg" +:+ dquote +:+ ":";
     "- http://a.test => 1";
     "- http://b.test => 0";
     "- Total count for word " +:+ dquote +:+ "uniberg" +:+ dquote
       +:+ " in all urls => 1";
     "* Total count of all words in all urls => 11";
     "* Total count of unique words in all urls => 10"].
Proof. by vm_compute. Qed.

(** A url on two lines: the pages are fetched, the pivot table cannot be
    built, and no report is written. *)
Example repeated_url_writes_no_report :
  fetch_all demo_env [] [url_a; url_a] WORDS
  = Returned (concat (page_frames demo_env [url_a; url_a] WORDS))
  ∧ main demo_env [] [url_a; url_a] WORDS (demo_world None (Some ""))
    = (Raised (ValueError "Index contains duplicate entries, cannot reshape"),
       demo_world None (Some "")).
Proof. split; by vm_compute. Qed.

Lemma blank_lines_load_as_empty_urls_witness :
  (0 < line_count (" " +:+ newline +:+ String CR (String LF "  ")))%nat
  ∧ length (readlines (" " +:+ newline +:+ String CR (String LF "  ")))
    = line_count (" " +:+ newline +:+ String CR (String LF "  "))
  ∧ get_urls (demo_world (Some (" " +:+ newline +:+ String CR (String LF "  ")))
                None)
    = Returned
        (replicate (line_count (" " +:+ newline +:+ String CR (String LF "  ")))
           "")
  ∧ load_urls (demo_world (Some (" " +:+ newline +:+ String CR (String LF "  ")))
                 None)
    = Returned
        (replicate (line_count (" " +:+ newline +:+ String CR (String LF "  ")))
           "")
  ∧ script demo_env []
      (demo_world (Some (" " +:+ newline +:+ String CR (String LF "  "))) None)
    = report_errors
        (main demo_env []
           (replicate
              (line_count (" " +:+ newline +:+ String CR (String LF "  "))) "")
           WORDS
           (truncate_result
              (demo_world (Some (" " +:+ newline +:+ String CR (String LF "  ")))
                 None)))
  ∧ fetch_all demo_env []
      (replicate (line_count (" " +:+ newline +:+ String CR (String LF "  ")))
         "") WORDS
    = (let! frame := fetch_data demo_env "" WORDS in
       Returned
         (concat
            (replicate
               (line_count (" " +:+ newline +:+ String CR (String LF "  ")))
               frame)))
  ∧ get_urls {| cwd := "/srv/demo";
                urls_txt := Some (terminated [" "; ""; "  "]);
                result_txt := None; stdout := [] |}
    = Returned (replicate (length [" "; ""; "  "]) "").
Proof.
  destruct (blank_lines_load_as_empty_urls demo_env [] "/srv/demo"
              (" " +:+ newline +:+ String CR (String LF "  ")) None []
              [" "; ""; "  "])
    as (H1 & H2 & H3 & H4 & H5 & H6 & H7).
  - discriminate.
  - reflexivity.
  - split_and!; [exact H1|exact H2|exact H3|exact H4|exact H5|exact H6|].
    apply H7. repeat constructor.
Defined.

(** The blank file of the witness has three lines: three empty urls, and the
    script reports the empty url as invalid. *)
Example blank_file_run :
  line_count (" " +:+ newline +:+ String CR (String LF "  ")) = 3
  ∧ get_urls (demo_world (Some (" " +:+ newline +:+ String CR (String LF "  ")))
                None)
    = Returned [""; ""; ""]
  ∧ (script demo_env []
       (demo_world (Some (" " +:+ newline +:+ String CR (String LF "  "))) None)).2
    = print ("There is an invalid url -> " +:+ dquote +:+ dquote +:+ " in "
             +:+ dquote +:+ "ursl.txt" +:+ dquote +:+ " file.")
        (demo_world (Some (" " +:+ newline +:+ String CR (String LF "  "))) None).
Proof. split_and!; reflexivity. Qed.

(** * Further properties of the program *)

(** ** Counting a word *)

Lemma match_here_length (pattern text : string) :
  match_here pattern text = true →
  (String.length pattern ≤ String.length text)%nat.
Proof.
  revert text. induction pattern as [|p ps IH]; intros text Hm.
  - cbn. lia.
  - destruct text as [|t ts]; [done|]. cbn in *.
    apply andb_true_iff in Hm as [_ Hm]. apply IH in Hm. lia.
Qed.

Lemma findall_loop_fits (pattern text : string) (skip : nat) :
  (skip ≤ String.length text)%nat →
  (length (findall_loop pattern skip text) * String.length pattern
   ≤ String.length text - skip)%nat.
Proof.
  revert skip. induction text as [|t text IH]; intros skip Hskip.
  - destruct skip; cbn in *; [|lia].
    destruct pattern; cbn; lia.
  - destruct skip as [|k]; cbn [findall_loop].
    + destruct (match_here pattern (String t text)) eqn:Hm.
      * apply match_here_length in Hm. cbn [String.length] in *.
        destruct pattern as [|p ps]; [cbn; lia|].
        cbn [String.length Nat.pred length] in *.
        specialize (IH (String.length ps) ltac:(lia)). lia.
      * specialize (IH 0 ltac:(lia)). cbn [String.length]. lia.
    + cbn [String.length] in *. specialize (IH k ltac:(lia)). lia.
Qed.

(** X1. The matches [count_words] counts do not overlap: for a word without
    regular-expression metacharacters, the count times the length of the
    word never exceeds the length of the text of the page. *)
Theorem count_words_matches_fit (soup : BeautifulSoup) (word url : string) :
  plain_pattern word = true →
  ∃ n,
    count_words soup word url
    = Returned {| count_url := url; count_word := word; count_count := n |}
    ∧ (n * String.length word ≤ String.length (get_text soup))%nat.
Proof.
  intros _. eexists. split; [reflexivity|].
  pose proof (findall_loop_fits word (get_text soup) 0) as Hfit.
  unfold re_findall_ignorecase. lia.
Qed.

Lemma count_words_matches_fit_witness :
  ∃ n,
    count_words (text_parser "teamTEAMtea") "team" url_a
    = Returned {| count_url := url_a; count_word := "team"; count_count := n |}
    ∧ (n * String.length "team"
       ≤ String.length (get_text (text_parser "teamTEAMtea")))%nat.
Proof.
  apply (count_words_matches_fit (text_parser "teamTEAMtea") "team" url_a).
  reflexivity.
Defined.

(** ** The aggregate of a page *)

(** A blank ends the token in progress. *)
Lemma split_loop_blank (tok s rest : string) (c : ascii) :
  isspace c = true →
  split_loop tok (s +:+ String c rest) = split_loop tok s ++ split_loop "" rest.
Proof.
  intros Hc. revert tok. induction s as [|d s IH]; intros tok.
  - cbn. rewrite Hc. by destruct tok.
  - cbn [String.append split_loop]. destruct (isspace d).
    + destruct tok; by rewrite IH.
    + apply IH.
Qed.

Lemma all_words_blank (s1 s2 : string) (c : ascii) :
  isspace c = true →
  filter (λ x, isalpha x = true) (split (lower (s1 +:+ String c s2)))
  = filter (λ x, isalpha x = true) (split (lower s1))
    ++ filter (λ x, isalpha x = true) (split (lower s2)).
Proof.
  intros Hc. rewrite lower_app. unfold lower at 2. cbn [str_map].
  fold (lower s2). unfold split.
  rewrite split_loop_blank by (by rewrite lower_char_space).
  apply filter_app.
Qed.

(** X2. The aggregate is additive over texts joined by a whitespace
    character: [total_words] of the joined text is the sum of the two, and
    [unique_words] lies between the larger of the two and their sum. *)
Theorem get_aggr_data_of_joined_texts (text1 text2 other url : string)
    (c : ascii) :
  isspace c = true →
  ∃ a1 a2 a,
    get_aggr_data {| get_text := other; get_text_sep_strip := text1 |} url
    = Returned a1
    ∧ get_aggr_data {| get_text := other; get_text_sep_strip := text2 |} url
      = Returned a2
    ∧ get_aggr_data
        {| get_text := other;
           get_text_sep_strip := text1 +:+ String c text2 |} url
      = Returned a
    ∧ aggr_total_words a = (aggr_total_words a1 + aggr_total_words a2)%nat
    ∧ (aggr_unique_words a1 `max` aggr_unique_words a2 ≤ aggr_unique_words a)%nat
    ∧ (aggr_unique_words a ≤ aggr_unique_words a1 + aggr_unique_words a2)%nat.
Proof.
  intros Hc. do 3 eexists. split_and!; [reflexivity..| | |];
    cbn [aggr_total_words aggr_unique_words get_text_sep_strip];
    rewrite all_words_blank by done.
  - apply length_app.
  - rewrite list_to_set_app_L.
    apply Nat.max_lub; apply subseteq_size; set_solver.
  - rewrite list_to_set_app_L, size_union_alt.
    apply Nat.add_le_mono_l, subseteq_size. set_solver.
Qed.

Lemma get_aggr_data_of_joined_texts_witness :
  ∃ a1 a2 a,
    get_aggr_data {| get_text := ""; get_text_sep_strip := page_a |} url_a
    = Returned a1
    ∧ get_aggr_data {| get_text := ""; get_text_sep_strip := page_b |} url_a
      = Returned a2
    ∧ get_aggr_data
        {| get_text := "";
           get_text_sep_strip := page_a +:+ String LF page_b |} url_a
      = Returned a
    ∧ aggr_total_words a = (aggr_total_words a1 + aggr_total_words a2)%nat
    ∧ (aggr_unique_words a1 `max` aggr_unique_words a2 ≤ aggr_unique_words a)%nat
    ∧ (aggr_unique_words a ≤ aggr_unique_words a1 + aggr_unique_words a2)%nat.
Proof.
  apply (get_aggr_data_of_joined_texts page_a page_b "" url_a LF).
  reflexivity.
Defined.

(** X3. Text without an alphabetic token adds nothing: when the aggregate of
    [text2] has [total_words] 0 (tokens with a digit, a hyphen or a
    punctuation mark attached), the aggregate of [text1], a whitespace
    character and [text2] is the aggregate of [text1]. *)
Theorem get_aggr_data_skips_other_tokens (text1 text2 other url : string)
    (c : ascii) :
  isspace c = true →
  get_aggr_data {| get_text := other; get_text_sep_strip := text2 |} url
  = Returned {| aggr_url := url; aggr_total_words := 0;
                aggr_unique_words := 0 |} →
  get_aggr_data
    {| get_text := other; get_text_sep_strip := text1 +:+ String c text2 |} url
  = get_aggr_data {| get_text := other; get_text_sep_strip := text1 |} url.
Proof.
  intros Hc Hnone. unfold get_aggr_data in *.
  cbn [get_text_sep_strip] in *. rewrite all_words_blank by done.
  injection Hnone as Hlen _. apply nil_length_inv in Hlen.
  by rewrite Hlen, app_nil_r.
Qed.

Lemma get_aggr_data_skips_other_tokens_witness :
  get_aggr_data
    {| get_text := "";
       get_text_sep_strip := page_a +:+ String " "%char "team, 1st half-time" |}
    url_a
  = get_aggr_data {| get_text := ""; get_text_sep_strip := page_a |} url_a.
Proof.
  apply (get_aggr_data_skips_other_tokens page_a "team, 1st half-time" "" url_a
           " "%char).
  - reflexivity.
  - reflexivity.
Defined.

(** ** Reading urls.txt *)

(** X4. The urls [get_urls] returns are trimmed and without line ends: none
    has whitespace at either end, none contains a line feed or a carriage
    return, and there is one per line of the file. *)
Theorem get_urls_are_trimmed (w : world) (urls : list string) :
  get_urls w = Returned urls →
  Forall (λ url, strip url = url ∧ no_line_break url = true) urls
  ∧ ∃ content, urls_txt w = Some content
               ∧ length urls = length (readlines content).
Proof.
  unfold get_urls. destruct (urls_txt w) as [content|]; [|done].
  intros [= <-]. split; [|exists content; by rewrite length_fmap].
  apply Forall_fmap.
  eapply Forall_impl;
    [apply (readlines_loop_lines "" _ eq_refl), universal_newlines_no_CR|].
  intros line (text & Htext & [->| ->]); unfold compose, newline.
  - split; [apply strip_idem|by apply strip_forall].
  - rewrite strip_app_space by done.
    split; [apply strip_idem|by apply strip_forall].
Qed.

Lemma get_urls_are_trimmed_witness :
  Forall (λ url, strip url = url ∧ no_line_break url = true) [url_a; ""; url_b]
  ∧ ∃ content,
      urls_txt (demo_world
                  (Some ("  http://a.test " +:+ String CR (String LF " ")
                         +:+ newline +:+ "http://b.test")) None)
      = Some content
      ∧ length [url_a; ""; url_b] = length (readlines content).
Proof.
  apply (get_urls_are_trimmed
           (demo_world
              (Some ("  http://a.test " +:+ String CR (String LF " ")
                     +:+ newline +:+ "http://b.test")) None)).
  reflexivity.
Defined.

Lemma url_lines_no_CR (urls : list string) (tail : string) :
  Forall url_line urls →
  str_forall (λ c, negb (Ascii.eqb c CR)) tail = true →
  str_forall (λ c, negb (Ascii.eqb c CR)) (join newline urls +:+ tail) = true.
Proof.
  assert (∀ u, no_line_break u = true →
               str_forall (λ c, negb (Ascii.eqb c CR)) u = true) as Hcr.
  { intros u. unfold no_line_break. induction u as [|c u IH]; [done|].
    cbn [str_forall]. intros [Hc Hu]%andb_true_iff.
    apply negb_true_iff, orb_false_iff in Hc as [_ ->]. by apply IH. }
  intros Hurls Htail. induction Hurls as [|u us (_ & _ & Hu) Hus IH]; [by cbn|].
  destruct us as [|u' us].
  - cbn [join]. by rewrite str_forall_app, Hcr.
  - change (join newline (u :: u' :: us))
      with (u +:+ newline +:+ join newline (u' :: us)).
    rewrite !append_assoc, str_forall_app, Hcr by done.
    rewrite str_forall_app. by rewrite IH.
Qed.

Lemma lines_of_join (urls : list string) (tail : string) :
  Forall url_line urls → urls ≠ [] →
  (∀ u, url_line u → strip <$> readlines_loop "" (u +:+ tail) = [u]) →
  strip <$> readlines_loop "" (join newline urls +:+ tail) = urls.
Proof.
  intros Hurls Hne Htail. revert Hne.
  induction Hurls as [|u us Hu Hus IH]; [done|]. intros _.
  destruct us as [|u' us]; [by apply Htail|].
  change (join newline (u :: u' :: us))
    with (u +:+ newline +:+ join newline (u' :: us)).
  set (rest := join newline (u' :: us)) in *.
  destruct Hu as (_ & Hstrip & Hline).
  rewrite !append_assoc, readlines_loop_text by done.
  cbn [String.append newline readlines_loop]. rewrite Ascii.eqb_refl.
  rewrite fmap_cons, IH by done. f_equal.
  unfold newline. by rewrite strip_app_space.
Qed.

(** X5. Writing urls.txt and reading it back: a file with one url per line,
    each url non-empty, trimmed and on one line, loads as exactly these
    urls, in their order; a line feed after the last url changes nothing. *)
Theorem get_urls_reads_back (urls : list string) (dir : string)
    (result : option string) (out : list string) :
  Forall url_line urls → urls ≠ [] →
  get_urls {| cwd := dir; urls_txt := Some (join newline urls);
              result_txt := result; stdout := out |}
  = Returned urls
  ∧ get_urls {| cwd := dir; urls_txt := Some (join newline urls +:+ newline);
                result_txt := result; stdout := out |}
    = Returned urls.
Proof.
  intros Hurls Hne. unfold get_urls. cbn [urls_txt]. unfold readlines. split.
  - f_equal. rewrite <-(append_empty_r (join newline urls)).
    rewrite universal_newlines_id by (by apply url_lines_no_CR).
    apply lines_of_join; [done..|].
    intros u (Hu & Hstrip & Hline).
    rewrite readlines_loop_text by done. cbn. destruct u; [done|].
    cbn [fmap list_fmap]. by rewrite Hstrip.
  - f_equal. rewrite universal_newlines_id by (by apply url_lines_no_CR).
    apply lines_of_join; [done..|].
    intros u (Hu & Hstrip & Hline).
    rewrite readlines_loop_text by done.
    cbn [String.append newline readlines_loop]. rewrite Ascii.eqb_refl.
    cbn [readlines_loop fmap list_fmap]. unfold newline.
    by rewrite strip_app_space, Hstrip.
Qed.

Lemma get_urls_reads_back_witness :
  get_urls {| cwd := "/srv/demo"; urls_txt := Some (join newline [url_a; url_b]);
              result_txt := None; stdout := [] |}
  = Returned [url_a; url_b]
  ∧ get_urls {| cwd := "/srv/demo";
                urls_txt := Some (join newline [url_a; url_b] +:+ newline);
                result_txt := None; stdout := [] |}
    = Returned [url_a; url_b].
Proof.
  apply (get_urls_reads_back [url_a; url_b] "/srv/demo" None []).
  - repeat constructor; discriminate.
  - discriminate.
Defined.

(** ** A run of [main] *)

Lemma save_data_raised (df : DataFrame) (w w' : world) (e : exn) :
  save_data df w = (Raised e, w') → w' = w.
Proof.
  unfold save_data, and_then, await, perform. destruct df as [|r df].
  - by intros [= _ <-].
  - destruct (pivot (r :: df)); [|by intros [= _ <-]].
    destruct (last _); [done|by intros [= _ <-]].
Qed.

Lemma main_raised_world (env : environment) (order : list nat)
    (urls words : list string) (w w' : world) (e : exn) :
  main env order urls words w = (Raised e, w') → w' = w.
Proof.
  unfold main, and_then, await, perform.
  destruct (fetch_all env order urls words) as [df|e']; [|by intros [= _ <-]].
  destruct (save_data df w) as [[[]|e'] w1] eqn:Hsave; [done|].
  intros [= _ <-]. by eapply save_data_raised.
Qed.

(** X7. [main] writes all or nothing: when it raises, it has written nothing
    to result.txt and printed nothing; the world is as it found it. *)
Theorem main_raises_without_trace (env : environment) (order : list nat)
    (urls words : list string) (w w' : world) (e : exn) :
  main env order urls words w = (Raised e, w') → w' = w.
Proof. apply main_raised_world. Qed.

Lemma main_raises_without_trace_witness :
  (main demo_env [] [url_a; url_a] WORDS (demo_world None (Some "old"))).2
  = demo_world None (Some "old").
Proof.
  apply (main_raises_without_trace demo_env [] [url_a; url_a] WORDS
           (demo_world None (Some "old")) _
           (ValueError "Index contains duplicate entries, cannot reshape")).
  vm_compute. reflexivity.
Defined.

(** X8. Without urls there is nothing to concatenate: for every schedule and
    every list of words, [main] on the empty list raises the [ValueError] of
    [pd.concat] and leaves the world as it is.  The assertion of the script
    keeps this case away. *)
Theorem main_without_urls (env : environment) (order : list nat)
    (words : list string) (w : world) :
  main env order [] words w
  = (Raised (ValueError "No objects to concatenate"), w)
  ∧ ∀ w0 : world, load_urls w0 ≠ Returned [].
Proof.
  split.
  - unfold main, and_then, await, fetch_all.
    change ((λ url, fetch_data env url words) <$> [])
      with (Returned (A:=DataFrame) <$> []).
    by rewrite gather_returned.
  - intros w0. unfold load_urls. destruct (get_urls w0) as [urls|e]; [|done].
    cbn [bind]. case_bool_decide as Hlen; [|done].
    intros [= ->]. cbn in Hlen. lia.
Qed.

Lemma pivot_loop_raised (df : DataFrame) (table : gmap (string * string) row)
    (e : exn) :
  pivot_loop df table = Raised e →
  e = ValueError "Index contains duplicate entries, cannot reshape".
Proof.
  revert table. induction df as [|r df IH]; intros table; [done|].
  cbn [pivot_loop]. destruct (table !! (word r, url r)); [by intros [= <-]|].
  apply IH.
Qed.

(** X9. A url listed twice stops the report: when every page is fetched but
    the urls are not pairwise distinct, [main] raises the [ValueError] of the
    pivot table, for every schedule, and writes nothing. *)
Theorem main_with_repeated_url (env : environment) (order : list nat)
    (urls : list string) (w : world) :
  all_fetched env urls → ¬ NoDup urls →
  main env order urls WORDS w
  = (Raised (ValueError "Index contains duplicate entries, cannot reshape"), w).
Proof.
  intros Hall Hdup.
  assert (urls ≠ []) as Hurls by (intros ->; apply Hdup; constructor).
  unfold main, and_then, await.
  rewrite fetch_all_returned, page_frames_grid by done.
  set (df := grid _ _ _ _ _).
  destruct (save_data df w) as [[[]|e] w1] eqn:Hsave.
  - apply save_data_grid_inv in Hsave as [? _]; done.
  - pose proof (save_data_raised _ _ _ _ Hsave) as ->. do 2 f_equal.
    unfold save_data, and_then, await in Hsave.
    destruct df as [|r0 rest] eqn:Hdf.
    { assert (grid_row (page_total env) (page_unique env) (page_count env)
                (default "" (head urls)) "team" ∈ df) as Hin.
      { apply elem_of_grid. exists (default "" (head urls)), "team".
        split_and!; [|by left|done].
        destruct urls; [done|by left]. }
      rewrite Hdf in Hin. by apply elem_of_nil in Hin. }
    rewrite <-Hdf in Hsave.
    destruct (pivot df) as [pivot_df|e'] eqn:Hpivot.
    + apply pivot_loop_returned_inv, grid_keys_NoDup_inv in Hpivot as [Hnd _].
      destruct Hdup. by apply Hnd.
    + injection Hsave as ->. by apply pivot_loop_raised in Hpivot.
Qed.

Lemma main_with_repeated_url_witness :
  main demo_env [2; 0] [url_a; url_b; url_a] WORDS (demo_world None None)
  = (Raised (ValueError "Index contains duplicate entries, cannot reshape"),
     demo_world None None).
Proof.
  apply (main_with_repeated_url demo_env [2; 0] [url_a; url_b; url_a]
           (demo_world None None)).
  - all_fetched_by_cases.
  - intros Hnd. apply NoDup_cons in Hnd as [Hin _]. apply Hin.
    apply elem_of_cons. right. apply elem_of_cons. left. reflexivity.
Defined.

(** X10. Which exception ends the batch is decided by the schedule: when the
    fetches that complete before the fetch of the url at position [i] all
    succeed and that fetch fails, [fetch_all] raises its exception, whatever
    happens to the fetches that would complete later. *)
Theorem fetch_all_raises_first_failure (env : environment)
    (before after : list nat) (i : nat) (urls : list string)
    (url : string) (e : exn) :
  urls !! i = Some url →
  response env url = Raised e →
  (∀ j url', j ∈ before → urls !! j = Some url' →
             ∃ body, response env url' = Returned body) →
  fetch_all env (before ++ i :: after) urls WORDS = Raised e.
Proof.
  intros Hi Hraise Hbefore. unfold fetch_all, gather, completion_order.
  rewrite <-app_assoc, <-app_comm_cons.
  rewrite (gather_loop_raised _ before i _ _ e); [done| |].
  - intros j Hj e' Hchild. rewrite list_lookup_fmap in Hchild.
    destruct (urls !! j) as [url'|] eqn:Hurl'; [|done].
    destruct (Hbefore j url' Hj Hurl') as [body Hbody].
    cbn in Hchild. by rewrite (fetch_data_returned env url' body) in Hchild.
  - rewrite list_lookup_fmap, Hi. cbn. by rewrite (fetch_data_raised env url e).
Qed.

Lemma fetch_all_raises_first_failure_witness :
  fetch_all demo_env ([0] ++ 2 :: [1]) [url_a; url_down; ""] WORDS
  = Raised (InvalidURL "").
Proof.
  apply (fetch_all_raises_first_failure demo_env [0] [1] 2
           [url_a; url_down; ""] "" (InvalidURL "")).
  - reflexivity.
  - reflexivity.
  - intros j url' Hj Hurl'. apply list_elem_of_singleton in Hj. subst j.
    injection Hurl' as <-. eexists. reflexivity.
Defined.

(** The same batch under another schedule ends with the other exception. *)
Example fetch_all_other_schedule :
  fetch_all demo_env [0; 1; 2] [url_a; url_down; ""] WORDS = Raised down_error.
Proof. reflexivity. Qed.

(** ** A run of the script *)

(** The three ways a run of the script ends. *)
Lemma script_cases (env : environment) (order : list nat) (w : world) :
  (∃ e line, load_urls w = Raised e
             ∧ script env order w = (Returned (), print line w))
  ∨ (∃ urls, load_urls w = Returned urls
             ∧ urls ≠ [] ∧ NoDup urls ∧ all_fetched env urls
             ∧ script env order w
               = (Returned (),
                  print (elapsed_line env)
                    (append_result (batch_report env urls WORDS)
                       (truncate_result w))))
  ∨ (∃ urls e, load_urls w = Returned urls
               ∧ ¬ (NoDup urls ∧ all_fetched env urls)
               ∧ script env order w
                 = (Returned (), print (error_line e) (truncate_result w))).
Proof.
  destruct (load_urls w) as [urls|e] eqn:Hload.
  - right. rewrite (script_loaded env order w urls Hload).
    assert (urls ≠ []) as Hurls.
    { intros ->. unfold load_urls in Hload.
      destruct (get_urls w) as [urls|?]; [|done]. cbn [bind] in Hload.
      case_bool_decide as Hlen; [|done]. injection Hload as ->.
      cbn in Hlen. lia. }
    destruct (main env order urls WORDS (truncate_result w))
      as [[[]|e] w1] eqn:Hmain.
    + left. exists urls.
      destruct (main_returned_inv _ _ _ _ _ _ Hmain) as (_ & _ & Hnd & _ & Hall).
      rewrite main_returned in Hmain by (done || apply WORDS_NoDup).
      injection Hmain as <-. done.
    + right. exists urls, e.
      pose proof (main_raised_world _ _ _ _ _ _ _ Hmain) as ->.
      split_and!; [done| |apply report_errors_raised].
      intros [Hnd Hall].
      by rewrite main_returned in Hmain by (done || apply WORDS_NoDup).
  - left. unfold script. rewrite Hload. unfold load_urls, get_urls in Hload.
    destruct (urls_txt w) as [content|]; cbn [bind] in Hload.
    + case_bool_decide; [done|]. injection Hload as <-. by eexists _, _.
    + injection Hload as <-. by eexists _, _.
Qed.



Lemma truncate_result_twice (w : world) (line : string) :
  result_txt (truncate_result (print line (truncate_result w)))
  = result_txt (truncate_result w).
Proof. cbn. by destruct (result_txt w). Qed.

(** X13. What result.txt holds after a run does not depend on the order in
    which the fetches complete, and running the script again on the same
    pages, under any schedule, leaves result.txt as the first run left it. *)
Theorem script_result_is_reproducible (env : environment)
    (order1 order2 : list nat) (w : world) :
  result_txt (script env order2 w).2 = result_txt (script env order1 w).2
  ∧ result_txt (script env order2 (script env order1 w).2).2
    = result_txt (script env order1 w).2.
Proof.
  split.
  - destruct (script_cases env order1 w)
      as [(e & line & He & ->)|[(urls & Hload & _ & Hnd & Hall & ->)
                               |(urls & e & Hload & Hnot & ->)]];
    destruct (script_cases env order2 w)
      as [(e' & line' & He' & ->)|[(urls' & Hload' & _ & Hnd' & Hall' & ->)
                                  |(urls' & e' & Hload' & Hnot' & ->)]];
    try congruence; try done.
    + assert (urls' = urls) as -> by congruence. by destruct Hnot'.
    + assert (urls' = urls) as -> by congruence. by destruct Hnot.
  - destruct (script_cases env order1 w)
      as [(e & line & He & ->)|[(urls & Hload & _ & Hnd & Hall & ->)
                               |(urls & e & Hload & Hnot & ->)]];
      cbn [snd].
    + destruct (script_cases env order2 (print line w))
        as [(e' & line' & He' & ->)|[(urls' & Hload' & _)
                                    |(urls' & e' & Hload' & _)]];
        [done|..]; change (load_urls (print line w)) with (load_urls w) in Hload';
        congruence.
    + set (w1 := print _ _).
      assert (load_urls w1 = Returned urls) as Hload1 by exact Hload.
      destruct (script_cases env order2 w1)
        as [(e' & line' & He' & _)|[(urls' & Hload' & _ & _ & _ & ->)
                                   |(urls' & e' & Hload' & Hnot' & _)]].
      * congruence.
      * assert (urls' = urls) as -> by congruence. subst w1. cbn.
        by destruct (result_txt w).
      * assert (urls' = urls) as -> by congruence. by destruct Hnot'.
    + set (w1 := print _ _).
      assert (load_urls w1 = Returned urls) as Hload1 by exact Hload.
      destruct (script_cases env order2 w1)
        as [(e' & line' & He' & _)|[(urls' & Hload' & _ & Hnd' & Hall' & _)
                                   |(urls' & e' & Hload' & _ & ->)]].
      * congruence.
      * assert (urls' = urls) as -> by congruence. by destruct Hnot.
      * subst w1. cbn [snd]. apply truncate_result_twice.
Qed.

(** X14. A batch that fails costs the old report: when the urls are loaded
    but a fetch fails or a url is listed twice, the script still truncates
    result.txt before the batch runs, so an existing file ends up empty, a
    missing file stays missing, and one error message is printed. *)
Theorem script_failed_batch_clears_report (env : environment)
    (order : list nat) (w : world) (urls : list string) :
  load_urls w = Returned urls →
  ¬ (NoDup urls ∧ all_fetched env urls) →
  ∃ e,
    script env order w
    = (Returned (),
       {| cwd := cwd w; urls_txt := urls_txt w;
          result_txt := (λ _, "") <$> result_txt w;
          stdout := stdout w ++ [error_line e] |}).
Proof.
  intros Hload Hnot.
  destruct (script_cases env order w)
    as [(e & line & He & _)|[(urls' & Hload' & _ & Hnd & Hall & _)
                            |(urls' & e & _ & _ & ->)]].
  - congruence.
  - assert (urls' = urls) as -> by congruence. by destruct Hnot.
  - exists e. unfold print, truncate_result. cbn. by destruct (result_txt w).
Qed.

Lemma script_failed_batch_clears_report_witness :
  ∃ e,
    script demo_env [1]
      (demo_world (urls_file [url_a; url_down]) (Some "old report"))
    = (Returned (),
       {| cwd := cwd (demo_world (urls_file [url_a; url_down])
                        (Some "old report"));
          urls_txt := urls_txt (demo_world (urls_file [url_a; url_down])
                                  (Some "old report"));
          result_txt := (λ _, "")
                        <$> result_txt
                              (demo_world (urls_file [url_a; url_down])
                                 (Some "old report"));
          stdout := stdout (demo_world (urls_file [url_a; url_down])
                              (Some "old report"))
                    ++ [error_line e] |}).
Proof.
  apply (script_failed_batch_clears_report demo_env [1]
           (demo_world (urls_file [url_a; url_down]) (Some "old report"))
           [url_a; url_down]).
  - reflexivity.
  - intros [_ Hall]. destruct (Hall url_down) as [body Hbody].
    + apply elem_of_cons. right. apply elem_of_cons. left. reflexivity.
    + discriminate Hbody.
Defined.
